(** * Collection provisioning for PocketBase: model and verification

    Shallow embedding of the setup module of the repository:
    the schema helpers (schemas.ts) and the provisioning engine
    (provision.ts: [provisionCollections], [checkPocketBaseHealth],
    [buildCollectionPayload]).

    The PocketBase SDK and the server behind it are external; they are
    modelled as an interface ([PocketBaseApi]) of state transformers over an
    abstract network state, every call of which may reject with a JavaScript
    error.  The progress callback [onProgress] belongs to the caller: it
    is a function over a state of the caller's that may throw, and every
    call of it is kept in a log.  [provisionCollections] is the run with
    the callback left out, [provisionCollectionsWith] the run with the
    callback the caller gives. *)

From stdpp Require Import base strings gmap list pretty.

Open Scope string_scope.

(** ** JavaScript values *)

(** The values that travel in [Record<string, unknown>] bags.  Numbers are
    kept as integers: the code only passes them through or replaces an absent
    one by an integer default. *)
#[warnings="-register-all"]
Inductive JsValue : Type :=
| JsUndefined
| JsNull
| JsBool (b : bool)
| JsNumber (n : Z)
| JsString (s : string)
| JsArray (items : list JsValue)
| JsObject (props : list (string * JsValue)).

(** [v === undefined || v === null] *)
Definition nullish (v : JsValue) : bool :=
  match v with
  | JsUndefined | JsNull => true
  | _ => false
  end.

(** [v ?? d] *)
Definition coalesce (v d : JsValue) : JsValue :=
  if nullish v then d else v.

(** Truthiness, as used by [if (settings.googleAuth)]. *)
Definition truthy (v : JsValue) : bool :=
  match v with
  | JsUndefined | JsNull => false
  | JsBool b => b
  | JsNumber n => negb (n =? 0)%Z
  | JsString s => negb (String.eqb s EmptyString)
  | JsArray _ | JsObject _ => true
  end.

Fixpoint assoc (k : string) (kvs : list (string * JsValue)) : JsValue :=
  match kvs with
  | [] => JsUndefined
  | (k', v) :: rest => if String.eqb k k' then v else assoc k rest
  end.

(** [v.k] for a value [v] that is neither null nor undefined: a property of
    an object, [undefined] on a primitive. *)
Definition member (v : JsValue) (k : string) : JsValue :=
  match v with
  | JsObject kvs => assoc k kvs
  | _ => JsUndefined
  end.

(** [bag?.k] for an optional bag of options. *)
Definition opt_member (bag : option (gmap string JsValue)) (k : string) : JsValue :=
  match bag with
  | None => JsUndefined
  | Some m => default JsUndefined (m !! k)
  end.

(** ** schemas.ts *)

Inductive FieldType : Type :=
| Ftext | Fnumber | Fbool | Femail | Furl | Fdate
| Fselect | Fjson | Ffile | Frelation | Feditor.

Definition fieldTypeName (t : FieldType) : string :=
  match t with
  | Ftext => "text" | Fnumber => "number" | Fbool => "bool"
  | Femail => "email" | Furl => "url" | Fdate => "date"
  | Fselect => "select" | Fjson => "json" | Ffile => "file"
  | Frelation => "relation" | Feditor => "editor"
  end.

Record FieldSchema : Type := mkField {
  f_name : string;
  f_type : FieldType;
  f_required : option bool;
  f_options : option (gmap string JsValue)
}.

Inductive CollectionType : Type := Cbase | Cauth | Cview.

(** An API rule: [string | null | undefined].  The empty string means public,
    [null] means locked. *)
Inductive Rule : Type :=
| RuleUndefined
| RuleNull
| RuleExpr (expr : string).

Record CollectionSchema : Type := mkSchema {
  name : string;
  ctype : CollectionType;
  fields : list FieldSchema;
  indexes : option (list string);
  listRule : Rule;
  viewRule : Rule;
  createRule : Rule;
  updateRule : Rule;
  deleteRule : Rule
}.

Definition dq : string := String (Ascii.ascii_of_nat 34) EmptyString.

(** [@request.auth.id != ""] *)
Definition authOnly : Rule := RuleExpr ("@request.auth.id != " +:+ dq +:+ dq).

Definition testItemsCollection : CollectionSchema :=
  {| name := "test_items";
     ctype := Cbase;
     fields := [ mkField "title" Ftext (Some true) None;
                 mkField "description" Ftext (Some false) None;
                 mkField "status" Ftext (Some false) None ];
     indexes := None;
     listRule := authOnly;
     viewRule := authOnly;
     createRule := authOnly;
     updateRule := authOnly;
     deleteRule := authOnly |}.

Definition tweetsCollection : CollectionSchema :=
  {| name := "tweets";
     ctype := Cbase;
     fields := [ mkField "content" Ftext (Some true) None ];
     indexes := None;
     listRule := RuleExpr EmptyString;
     viewRule := RuleExpr EmptyString;
     createRule := RuleExpr EmptyString;
     updateRule := authOnly;
     deleteRule := authOnly |}.

Definition DEFAULT_COLLECTIONS : list CollectionSchema :=
  [ testItemsCollection; tweetsCollection ].

(** ** provision.ts: the payload builder *)

Record CollectionPayload : Type := mkPayload {
  p_name : string;
  p_type : CollectionType;
  p_fields : list (gmap string JsValue);
  p_indexes : list string;
  p_listRule : Rule;
  p_viewRule : Rule;
  p_createRule : Rule;
  p_updateRule : Rule;
  p_deleteRule : Rule
}.

(** The three attributes every field carries. *)
Definition baseFieldOf (field : FieldSchema) : gmap string JsValue :=
  <["required" := JsBool (default false (f_required field))]>
    (<["type" := JsString (fieldTypeName (f_type field))]>
       (<["name" := JsString (f_name field)]> ∅)).

(** [baseField.k = field.options?.k ?? d] *)
Definition setDefaulted (field : FieldSchema) (k : string) (d : JsValue)
    (baseField : gmap string JsValue) : gmap string JsValue :=
  <[k := coalesce (opt_member (f_options field) k) d]> baseField.

(** The callback of [schema.fields.map]. *)
Definition buildField (field : FieldSchema) : gmap string JsValue :=
  let baseField := baseFieldOf field in
  match f_type field with
  | Ftext =>
      setDefaulted field "pattern" (JsString EmptyString)
        (setDefaulted field "max" (JsNumber 0)
           (setDefaulted field "min" (JsNumber 0) baseField))
  | Fnumber =>
      setDefaulted field "noDecimal" (JsBool false)
        (setDefaulted field "max" JsNull
           (setDefaulted field "min" JsNull baseField))
  | Fbool => baseField
  | Fselect =>
      setDefaulted field "maxSelect" (JsNumber 1)
        (setDefaulted field "values" (JsArray []) baseField)
  | Frelation =>
      setDefaulted field "maxSelect" (JsNumber 1)
        (setDefaulted field "cascadeDelete" (JsBool false)
           (setDefaulted field "collectionId" (JsString EmptyString) baseField))
  | Ffile =>
      setDefaulted field "mimeTypes" (JsArray [])
        (setDefaulted field "maxSize" (JsNumber 5242880)
           (setDefaulted field "maxSelect" (JsNumber 1) baseField))
  | Feditor =>
      setDefaulted field "convertUrls" (JsBool false) baseField
  | Femail | Furl | Fdate | Fjson =>
      match f_options field with
      | Some opts => opts ∪ baseField      (* Object.assign(baseField, opts) *)
      | None => baseField
      end
  end.

Definition buildCollectionPayload (schema : CollectionSchema) : CollectionPayload :=
  {| p_name := name schema;
     p_type := ctype schema;
     p_fields := map buildField (fields schema);
     p_indexes := default [] (indexes schema);
     p_listRule := listRule schema;
     p_viewRule := viewRule schema;
     p_createRule := createRule schema;
     p_updateRule := updateRule schema;
     p_deleteRule := deleteRule schema |}.

(** ** JavaScript errors and the effect monad *)

(** What a [catch (error)] clause can receive: an [Error] instance with its
    [message], or any other thrown value, kept as its [String(error)]
    rendering. *)
Inductive JsError : Type :=
| ErrorInstance (message : string)
| Thrown (rendering : string).

(** [error instanceof Error ? error.message : String(error)] *)
Definition errorMsg (error : JsError) : string :=
  match error with
  | ErrorInstance message => message
  | Thrown rendering => rendering
  end.

(** A computation over a state [S] that either returns a value or throws;
    what it did to the state before throwing stays done. *)
Definition Js (S A : Type) : Type := S → (JsError + A) * S.

Definition ret {S A} (a : A) : Js S A := λ s, (inr a, s).

Definition bind {S A B} (c : Js S A) (k : A → Js S B) : Js S B :=
  λ s, match c s with
       | (inr a, s') => k a s'
       | (inl e, s') => (inl e, s')
       end.

(** [try { body } catch (error) { handler }] *)
Definition try_catch {S A} (body : Js S A) (handler : JsError → Js S A) : Js S A :=
  λ s, match body s with
       | (inr a, s') => (inr a, s')
       | (inl e, s') => handler e s'
       end.

Definition get {S} : Js S S := λ s, (inr s, s).

Definition modify {S} (f : S → S) : Js S unit := λ s, (inr tt, f s).

Declare Scope js_scope.
Delimit Scope js_scope with js.
Notation "x <- c1 ;; c2" := (bind c1 (λ x, c2))
  (at level 100, c1 at next level, right associativity) : js_scope.
Notation "c1 ;; c2" := (bind c1 (λ _, c2))
  (at level 100, c2 at level 200, only parsing, right associativity) : js_scope.

(** [for (const x of xs) { body }] *)
Fixpoint forOf {S A} (xs : list A) (body : A → Js S unit) : Js S unit :=
  match xs with
  | [] => ret tt
  | x :: rest => (body x ;; forOf rest body)%js
  end.

(** The final state and the returned value of a computation. *)
Definition exec {S A} (c : Js S A) (s : S) : S := snd (c s).
Definition outcome {S A} (c : Js S A) (s : S) : JsError + A := fst (c s).

(** ** provision.ts: types *)

Record ErrorEntry : Type := mkError {
  collection : string;
  error : string
}.

Record ProvisionResult : Type := mkResult {
  success : bool;
  created : list string;
  skipped : list string;
  errors : list ErrorEntry;
  message : string
}.

(** The effect of the three [push] calls on the result object. *)
Definition addCreated (s : string) (r : ProvisionResult) : ProvisionResult :=
  mkResult (success r) (created r ++ [s]) (skipped r) (errors r) (message r).
Definition addSkipped (s : string) (r : ProvisionResult) : ProvisionResult :=
  mkResult (success r) (created r) (skipped r ++ [s]) (errors r) (message r).
Definition addError (e : ErrorEntry) (r : ProvisionResult) : ProvisionResult :=
  mkResult (success r) (created r) (skipped r) (errors r ++ [e]) (message r).

(** The data fields of the options object.  [ProvisionOptions], further
    down, adds the one function among the fields, [onProgress]
    (line 243). *)
Record ProvisionData : Type := mkOptions {
  pbUrl : string;
  adminEmail : string;
  adminPassword : string;
  collections : option (list CollectionSchema);
  updateExisting : option bool;
  settings : option (gmap string JsValue)
}.

(** ** The PocketBase client *)

(** [new PocketBase(url)]: the base URL and the auth store, which holds the
    token of the authenticated session, if any. *)
Record PocketBase : Type := mkClient {
  baseUrl : string;
  authStore : option string
}.

(** What the code reads of a collection record of the server. *)
Record CollectionModel : Type := mkModel {
  cm_id : string;
  cm_name : string
}.

Record HealthResponse : Type := mkHealth {
  health_code : Z;
  health_message : string
}.

(** Body of [pb.collections.update]: a full collection payload, or a partial
    object such as [{ oauth2 }]. *)
Inductive UpdateBody : Type :=
| BodyCollection (payload : CollectionPayload)
| BodyPatch (patch : JsValue).

(** The requests the module sends.  Each one reads the client it is called
    on, acts on the network state, and resolves or rejects. *)
Class PocketBaseApi (Net : Type) : Type := {
  admins_authWithPassword :
    PocketBase → string → string → Net → (JsError + string) * Net;
  collections_getFullList :
    PocketBase → Net → (JsError + list CollectionModel) * Net;
  collections_getOne :
    PocketBase → string → Net → (JsError + CollectionModel) * Net;
  collections_create :
    PocketBase → CollectionPayload → Net → (JsError + unit) * Net;
  collections_update :
    PocketBase → string → UpdateBody → Net → (JsError + unit) * Net;
  settings_update :
    PocketBase → gmap string JsValue → Net → (JsError + unit) * Net;
  health_check :
    PocketBase → Net → (JsError + HealthResponse) * Net
}.

(** ** State of one run of [provisionCollections] *)

Record Run (Net : Type) : Type := mkRun {
  net : Net;                      (* the server(s) reached over HTTP *)
  pb : PocketBase;                (* const pb *)
  result : ProvisionResult;       (* const result, mutated in place *)
  progress : list string          (* the messages onProgress was called with *)
}.
Arguments mkRun {Net}.
Arguments net {Net}.
Arguments pb {Net}.
Arguments result {Net}.
Arguments progress {Net}.

(** The body [{ oauth2 }] sent to the "users" collection in step 2.5.
    [googleAuth] is truthy where this is built, so reading its properties
    does not throw. *)
Definition oauth2Patch (googleAuth : JsValue) : UpdateBody :=
  let oauth2 :=
    JsObject
      [ ("enabled", JsBool true);
        ("providers",
         JsArray
           [ JsObject
               [ ("name", JsString "google");
                 ("clientId", member googleAuth "clientId");
                 ("clientSecret", member googleAuth "clientSecret") ] ]) ] in
  BodyPatch (JsObject [ ("oauth2", oauth2) ]).

Section Provisioning.
Context {Net : Type} `{Api : PocketBaseApi Net}.

Local Open Scope js_scope.

Definition set_net (n : Net) (st : Run Net) : Run Net :=
  mkRun n (pb st) (result st) (progress st).
Definition set_pb (c : PocketBase) (st : Run Net) : Run Net :=
  mkRun (net st) c (result st) (progress st).
Definition set_result (r : ProvisionResult) (st : Run Net) : Run Net :=
  mkRun (net st) (pb st) r (progress st).

(** An awaited request on [pb]. *)
Definition call {A} (request : PocketBase → Net → (JsError + A) * Net)
    : Js (Run Net) A :=
  λ st, let '(o, n) := request (pb st) (net st) in (o, set_net n st).

(** [await pb.admins.authWithPassword(email, password)]: on success the
    SDK saves the token in [pb.authStore]. *)
Definition pb_admins_authWithPassword (email password : string)
    : Js (Run Net) unit :=
  token <- call (λ c, admins_authWithPassword c email password) ;;
  modify (λ st, set_pb (mkClient (baseUrl (pb st)) (Some token)) st).

(** [pb.authStore.clear()] *)
Definition pb_authStore_clear : Js (Run Net) unit :=
  modify (λ st, set_pb (mkClient (baseUrl (pb st)) None) st).

(** [onProgress(msg)] when the caller gave no callback: the default
    [() => { }] of line 263 does nothing, and the call is logged. *)
Definition onProgressDefault (msg : string) : Js (Run Net) unit :=
  modify (λ st, mkRun (net st) (pb st) (result st) (progress st ++ [msg])).

Definition update_result (f : ProvisionResult → ProvisionResult)
    : Js (Run Net) unit :=
  modify (λ st, set_result (f (result st)) st).

(** [result.created.push(s)] and its siblings. *)
Definition push_created (s : string) : Js (Run Net) unit :=
  update_result (addCreated s).
Definition push_skipped (s : string) : Js (Run Net) unit :=
  update_result (addSkipped s).
Definition push_error (e : ErrorEntry) : Js (Run Net) unit :=
  update_result (addError e).
Definition set_success (b : bool) : Js (Run Net) unit :=
  update_result (λ r,
    mkResult b (created r) (skipped r) (errors r) (message r)).
Definition set_message (m : string) : Js (Run Net) unit :=
  update_result (λ r,
    mkResult (success r) (created r) (skipped r) (errors r) m).

Definition quoted (s : string) : string := dq +:+ s +:+ dq.

(** Steps 1 and 2 (lines 278-304).  [None] stands for the early
    [return result]; otherwise the set of existing collection names. *)
Definition connect (adminEmail adminPassword : string)
    : Js (Run Net) (option (gset string)) :=
  onProgressDefault "Authenticating as admin..." ;;
  returned <-
    try_catch
      (pb_admins_authWithPassword adminEmail adminPassword ;;
       onProgressDefault "✓ Admin authentication successful" ;;
       ret false)
      (λ error,
         let errorMsg := errorMsg error in
         set_success false ;;
         set_message ("Admin authentication failed: " +:+ errorMsg) ;;
         push_error (mkError "_admin" errorMsg) ;;
         ret true) ;;
  if returned : bool then ret None else
  onProgressDefault "Fetching existing collections..." ;;
  try_catch
    (allCollections <- call collections_getFullList ;;
     let existingCollections : gset string :=
       list_to_set (map cm_name allCollections) in
     onProgressDefault ("✓ Found " +:+ pretty (size existingCollections)
                 +:+ " existing collections") ;;
     ret (Some existingCollections))
    (λ error,
       let errorMsg := errorMsg error in
       set_success false ;;
       set_message ("Failed to fetch collections: " +:+ errorMsg) ;;
       push_error (mkError "_system" errorMsg) ;;
       ret None).

(** Step 2.5 (lines 306-341). *)
Definition applySettings (settings : option (gmap string JsValue))
    : Js (Run Net) unit :=
  match settings with
  | None => ret tt
  | Some settings =>
      let googleAuth := default JsUndefined (settings !! "googleAuth") in
      if truthy googleAuth then
        onProgressDefault "Updating collection OAuth2 settings..." ;;
        try_catch
          (users <- call (λ c, collections_getOne c "users") ;;
           call (λ c, collections_update c (cm_id users) (oauth2Patch googleAuth)) ;;
           onProgressDefault ("✓ Google OAuth2 enabled on " +:+ quoted "users"
                       +:+ " collection"))
          (λ error,
             let errorMsg := errorMsg error in
             push_error (mkError "users" errorMsg) ;;
             onProgressDefault ("✗ Failed to update OAuth2 settings: " +:+ errorMsg))
      else
        onProgressDefault "Updating global PocketBase settings..." ;;
        try_catch
          (call (λ c, settings_update c settings) ;;
           onProgressDefault "✓ Settings updated successfully")
          (λ error,
             let errorMsg := errorMsg error in
             push_error (mkError "_settings" errorMsg) ;;
             onProgressDefault ("✗ Failed to update settings: " +:+ errorMsg))
  end.

(** Body of the loop of step 3 (lines 344-377). *)
Definition provisionOne (updateExisting : bool)
    (existingCollections : gset string) (schema : CollectionSchema)
    : Js (Run Net) unit :=
  onProgressDefault ("Processing " +:+ quoted (name schema) +:+ "...") ;;
  if decide (name schema ∈ existingCollections) then
    if updateExisting then
      try_catch
        (existing <- call (λ c, collections_getOne c (name schema)) ;;
         call (λ c, collections_update c (cm_id existing)
                      (BodyCollection (buildCollectionPayload schema))) ;;
         push_created (name schema +:+ " (updated)") ;;
         onProgressDefault ("✓ Updated " +:+ quoted (name schema)))
        (λ error,
           let errorMsg := errorMsg error in
           push_error (mkError (name schema) errorMsg) ;;
           onProgressDefault ("✗ Failed to update " +:+ quoted (name schema)
                       +:+ ": " +:+ errorMsg))
    else
      push_skipped (name schema) ;;
      onProgressDefault ("○ Skipped " +:+ quoted (name schema) +:+ " (already exists)")
  else
    try_catch
      (call (λ c, collections_create c (buildCollectionPayload schema)) ;;
       push_created (name schema) ;;
       onProgressDefault ("✓ Created " +:+ quoted (name schema)))
      (λ error,
         let errorMsg := errorMsg error in
         push_error (mkError (name schema) errorMsg) ;;
         onProgressDefault ("✗ Failed to create " +:+ quoted (name schema)
                     +:+ ": " +:+ errorMsg)).

(** "Build final result" (lines 379-387). *)
Definition finalize : Js (Run Net) unit :=
  st <- get ;;
  let r := result st in
  if (0 <? length (errors r))%nat then
    set_success false ;;
    set_message ("Completed with " +:+ pretty (length (errors r)) +:+ " error(s)")
  else if ((length (created r) =? 0)%nat && (0 <? length (skipped r))%nat)%bool then
    set_message ("All " +:+ pretty (length (skipped r))
                 +:+ " collection(s) already exist")
  else
    set_message ("Successfully created " +:+ pretty (length (created r))
                 +:+ " collection(s)").

Definition emptyResult : ProvisionResult := mkResult true [] [] [] EmptyString.

(** Lines 267-304: the fresh result and client, then steps 1 and 2.
    ([pb.autoCancellation(false)] only configures the client.)  The store
    of the new client is empty, as it is in Node, where the setup script
    runs the engine. *)
Definition openSession (options : ProvisionData)
    : Js (Run Net) (option (gset string)) :=
  modify (set_result emptyResult) ;;
  modify (set_pb (mkClient (pbUrl options) None)) ;;
  connect (adminEmail options) (adminPassword options).

Definition provisionCollections (options : ProvisionData)
    : Js (Run Net) ProvisionResult :=
  let collections := default DEFAULT_COLLECTIONS (collections options) in
  let updateExisting := default false (updateExisting options) in
  existing <- openSession options ;;
  match existing with
  | None => st <- get ;; ret (result st)
  | Some existingCollections =>
      applySettings (settings options) ;;
      forOf collections (provisionOne updateExisting existingCollections) ;;
      finalize ;;
      pb_authStore_clear ;;
      st <- get ;; ret (result st)
  end.

Record CredentialsReport : Type := mkCredentials {
  valid : bool;
  verdict : string                (* the [message] field *)
}.

(** [validateAdminCredentials], on a client of its own.  [saved] is what
    the auth store of a new client holds: the SDK's default store starts
    empty in Node and loads the session kept in localStorage in a browser.
    The store is cleared on line 419 only, after a successful
    authentication; the [catch] clause leaves it alone. *)
Definition validateAdminCredentials (saved : option string)
    (pbUrl email password : string) : Js (Run Net) CredentialsReport :=
  modify (set_pb (mkClient pbUrl saved)) ;;
  try_catch
    (pb_admins_authWithPassword email password ;;
     pb_authStore_clear ;;
     ret (mkCredentials true "Credentials valid"))
    (λ error, ret (mkCredentials false (errorMsg error))).

End Provisioning.

(** ** The callback of the caller

    [onProgress?: (message: string) => void] is a function of the caller.
    The engine calls it synchronously, ignores what it returns and, like
    any call, lets what it throws propagate: outside a [try] out of the
    run, inside one to its [catch] clause.  A callback acts on a state [U]
    of the caller's; the locals [pb] and [result] of the run are out of its
    reach, and the registry and the settings it was given along with are
    taken as left alone. *)
Definition Callback (U : Type) : Type := string → U → (JsError + unit) * U.

(** [() => { }] *)
Definition noCallback {U : Type} : Callback U := λ _ u, (inr tt, u).

(** The options object of [provisionCollections]: the data, and the
    callback when the caller gives one. *)
Record ProvisionOptions (U : Type) : Type := withCallback {
  data :> ProvisionData;
  onProgress : option (Callback U)
}.
Arguments withCallback {U}.
Arguments data {U}.
Arguments onProgress {U}.

(** A callback that returns from every call; leaving the option out gives
    one. *)
Definition neverThrows {U : Type} (callback : option (Callback U)) : Prop :=
  ∀ f, callback = Some f → ∀ msg u, (f msg u).1 = inr tt.

Section ProvisioningWith.
Context {Net : Type} `{Api : PocketBaseApi Net} {U : Type}.
Variable callback : option (Callback U).

Local Open Scope js_scope.

(** A step of the engine in which the caller has no part. *)
Definition own {A} (c : Js (Run Net) A) : Js (Run Net * U) A :=
  λ s, let '(o, st) := c s.1 in (o, (st, s.2)).

(** [onProgress(msg)], where [onProgress = () => { }] when the option is
    left out (line 263): the call is logged, then the callback runs. *)
Definition callOnProgress (msg : string) : Js (Run Net * U) unit :=
  own (onProgressDefault msg) ;;
  λ s, let '(o, u) := default noCallback callback msg s.2 in (o, (s.1, u)).

(** Steps 1 and 2 (lines 278-304).  The calls of lines 279 and 292 are
    outside the [try] blocks, those of lines 283 and 297 inside. *)
Definition connectWith (adminEmail adminPassword : string)
    : Js (Run Net * U) (option (gset string)) :=
  callOnProgress "Authenticating as admin..." ;;
  returned <-
    try_catch
      (own (pb_admins_authWithPassword adminEmail adminPassword) ;;
       callOnProgress "✓ Admin authentication successful" ;;
       ret false)
      (λ error,
         let errorMsg := errorMsg error in
         own (set_success false) ;;
         own (set_message ("Admin authentication failed: " +:+ errorMsg)) ;;
         own (push_error (mkError "_admin" errorMsg)) ;;
         ret true) ;;
  if returned : bool then ret None else
  callOnProgress "Fetching existing collections..." ;;
  try_catch
    (allCollections <- own (call collections_getFullList) ;;
     let existingCollections : gset string :=
       list_to_set (map cm_name allCollections) in
     callOnProgress ("✓ Found " +:+ pretty (size existingCollections)
                 +:+ " existing collections") ;;
     ret (Some existingCollections))
    (λ error,
       let errorMsg := errorMsg error in
       own (set_success false) ;;
       own (set_message ("Failed to fetch collections: " +:+ errorMsg)) ;;
       own (push_error (mkError "_system" errorMsg)) ;;
       ret None).

(** Step 2.5 (lines 306-341).  The calls of lines 309 and 331 are outside
    the [try] blocks, those of lines 327 and 338 inside the [catch]
    clauses. *)
Definition applySettingsWith (settings : option (gmap string JsValue))
    : Js (Run Net * U) unit :=
  match settings with
  | None => ret tt
  | Some settings =>
      let googleAuth := default JsUndefined (settings !! "googleAuth") in
      if truthy googleAuth then
        callOnProgress "Updating collection OAuth2 settings..." ;;
        try_catch
          (users <- own (call (λ c, collections_getOne c "users")) ;;
           own (call (λ c, collections_update c (cm_id users)
                             (oauth2Patch googleAuth))) ;;
           callOnProgress ("✓ Google OAuth2 enabled on " +:+ quoted "users"
                       +:+ " collection"))
          (λ error,
             let errorMsg := errorMsg error in
             own (push_error (mkError "users" errorMsg)) ;;
             callOnProgress ("✗ Failed to update OAuth2 settings: " +:+ errorMsg))
      else
        callOnProgress "Updating global PocketBase settings..." ;;
        try_catch
          (own (call (λ c, settings_update c settings)) ;;
           callOnProgress "✓ Settings updated successfully")
          (λ error,
             let errorMsg := errorMsg error in
             own (push_error (mkError "_settings" errorMsg)) ;;
             callOnProgress ("✗ Failed to update settings: " +:+ errorMsg))
  end.

(** Body of the loop of step 3 (lines 344-377).  The calls of lines 345 and
    362 are outside the [try] blocks; those of lines 354 and 371 come in one
    after the [push] of the pass; those of lines 358 and 375 are in the
    [catch] clauses. *)
Definition provisionOneWith (updateExisting : bool)
    (existingCollections : gset string) (schema : CollectionSchema)
    : Js (Run Net * U) unit :=
  callOnProgress ("Processing " +:+ quoted (name schema) +:+ "...") ;;
  if decide (name schema ∈ existingCollections) then
    if updateExisting then
      try_catch
        (existing <- own (call (λ c, collections_getOne c (name schema))) ;;
         own (call (λ c, collections_update c (cm_id existing)
                           (BodyCollection (buildCollectionPayload schema)))) ;;
         own (push_created (name schema +:+ " (updated)")) ;;
         callOnProgress ("✓ Updated " +:+ quoted (name schema)))
        (λ error,
           let errorMsg := errorMsg error in
           own (push_error (mkError (name schema) errorMsg)) ;;
           callOnProgress ("✗ Failed to update " +:+ quoted (name schema)
                       +:+ ": " +:+ errorMsg))
    else
      own (push_skipped (name schema)) ;;
      callOnProgress ("○ Skipped " +:+ quoted (name schema) +:+ " (already exists)")
  else
    try_catch
      (own (call (λ c, collections_create c (buildCollectionPayload schema))) ;;
       own (push_created (name schema)) ;;
       callOnProgress ("✓ Created " +:+ quoted (name schema)))
      (λ error,
         let errorMsg := errorMsg error in
         own (push_error (mkError (name schema) errorMsg)) ;;
         callOnProgress ("✗ Failed to create " +:+ quoted (name schema)
                     +:+ ": " +:+ errorMsg)).

End ProvisioningWith.

Section Engine.
Context {Net : Type} `{Api : PocketBaseApi Net} {U : Type}.

Local Open Scope js_scope.

(** Lines 267-304, with the callback of the options. *)
Definition openSessionWith (options : ProvisionOptions U)
    : Js (Run Net * U) (option (gset string)) :=
  own (modify (set_result emptyResult)) ;;
  own (modify (set_pb (mkClient (pbUrl options) None))) ;;
  connectWith (onProgress options) (adminEmail options) (adminPassword options).

(** [provisionCollections(options)], with the callback of the options. *)
Definition provisionCollectionsWith (options : ProvisionOptions U)
    : Js (Run Net * U) ProvisionResult :=
  let collections := default DEFAULT_COLLECTIONS (collections options) in
  let updateExisting := default false (updateExisting options) in
  existing <- openSessionWith options ;;
  match existing with
  | None => own (st <- get ;; ret (result st))
  | Some existingCollections =>
      applySettingsWith (onProgress options) (settings options) ;;
      forOf collections
        (provisionOneWith (onProgress options) updateExisting existingCollections) ;;
      own finalize ;;
      own pb_authStore_clear ;;
      own (st <- get ;; ret (result st))
  end.

End Engine.

(** [c'] does to the run what [c] does, whatever it does to the caller. *)
Definition follows {Net U A : Type} (c' : Js (Run Net * U) A)
    (c : Js (Run Net) A) : Prop :=
  ∀ st u, ∃ u', c' (st, u) = ((c st).1, ((c st).2, u')).

(** [checkPocketBaseHealth] keeps no state but the network; its client is
    local, with the store [saved] that a new client starts with. *)
Record HealthReport : Type := mkReport {
  healthy : bool;
  report : string                 (* the [message] field *)
}.

Definition checkPocketBaseHealth {Net} `{Api : PocketBaseApi Net}
    (saved : option string) (pbUrl : string) : Js Net HealthReport :=
  let pb := mkClient pbUrl saved in
  try_catch
    (health <- health_check pb ;;
     ret (mkReport true (health_message health)))%js
    (λ error, ret (mkReport false (errorMsg error))).

(** ** The failures of a request

    The SDK is not part of the repository.  Its [send] wraps whatever makes
    a request fail (no connection, an aborted request, a response with an
    error status) in a [ClientResponseError], an [Error] whose [message] is
    the [message] of the response body when there is one and, when there is
    none or it is empty, a fixed text of the SDK: one for an aborted
    request, one for a connection refused on the IPv6 loopback, and
    "Something went wrong." for everything else.  The first two texts are
    parameters here. *)
Record RequestFailure : Type := mkFailure {
  responseMessage : string;       (* response.message, empty when absent *)
  isAbort : bool;
  refusedOnLoopback : bool
}.

Section ClientResponseError.
Variables (abortedText refusedText : string).

Definition clientResponseMessage (failure : RequestFailure) : string :=
  if String.eqb (responseMessage failure) EmptyString then
    if isAbort failure then abortedText
    else if refusedOnLoopback failure then refusedText
    else "Something went wrong."
  else responseMessage failure.

Definition clientResponseError (failure : RequestFailure) : JsError :=
  ErrorInstance (clientResponseMessage failure).

End ClientResponseError.

(** ** What the loop records, item by item *)

(** The four ways one pass of the loop can end. *)
Inductive Outcome : Type :=
| Created
| Updated
| Skipped
| Failed (msg : string).

Definition updatedTag : string := " (updated)".

(** The single [push] of a pass that ends with outcome [o]. *)
Definition record (schema : CollectionSchema) (o : Outcome)
    (r : ProvisionResult) : ProvisionResult :=
  match o with
  | Created => addCreated (name schema) r
  | Updated => addCreated (name schema +:+ updatedTag) r
  | Skipped => addSkipped (name schema) r
  | Failed msg => addError (mkError (name schema) msg) r
  end.

Definition recordAll (items : list (CollectionSchema * Outcome))
    (r : ProvisionResult) : ProvisionResult :=
  foldl (λ acc item, record item.1 item.2 acc) r items.

Definition createdOf (items : list (CollectionSchema * Outcome)) : list string :=
  omap (λ item, match item.2 with
                | Created => Some (name item.1)
                | Updated => Some (name item.1 +:+ updatedTag)
                | _ => None
                end) items.

Definition skippedOf (items : list (CollectionSchema * Outcome)) : list string :=
  omap (λ item, match item.2 with
                | Skipped => Some (name item.1)
                | _ => None
                end) items.

Definition errorsOf (items : list (CollectionSchema * Outcome)) : list ErrorEntry :=
  omap (λ item, match item.2 with
                | Failed msg => Some (mkError (name item.1) msg)
                | _ => None
                end) items.

Definition namesOf (items : list (CollectionSchema * Outcome)) : list string :=
  map name items.*1.

Section Outcomes.
Context {Net : Type} `{Api : PocketBaseApi Net}.

(** The error, if any, with which the request(s) of one pass reject when
    the pass starts in state [st]. *)
Definition rejects (updateExisting : bool) (existingCollections : gset string)
    (schema : CollectionSchema) (st : Run Net) : option JsError :=
  if decide (name schema ∈ existingCollections) then
    if updateExisting then
      match collections_getOne (pb st) (name schema) (net st) with
      | (inl e, _) => Some e
      | (inr existing, n) =>
          match collections_update (pb st) (cm_id existing)
                  (BodyCollection (buildCollectionPayload schema)) n with
          | (inl e, _) => Some e
          | (inr _, _) => None
          end
      end
    else None
  else
    match collections_create (pb st) (buildCollectionPayload schema) (net st) with
    | (inl e, _) => Some e
    | (inr _, _) => None
    end.

Definition attempt (updateExisting : bool) (existingCollections : gset string)
    (schema : CollectionSchema) (st : Run Net) : Outcome :=
  match rejects updateExisting existingCollections schema st with
  | Some e => Failed (errorMsg e)
  | None =>
      if decide (name schema ∈ existingCollections) then
        if updateExisting then Updated else Skipped
      else Created
  end.

(** The outcomes of the passes over [schemas], each taken in the state
    the passes before it have left. *)
Fixpoint outcomes (updateExisting : bool) (existingCollections : gset string)
    (schemas : list CollectionSchema) (st : Run Net)
    : list (CollectionSchema * Outcome) :=
  match schemas with
  | [] => []
  | schema :: rest =>
      (schema, attempt updateExisting existingCollections schema st)
      :: outcomes updateExisting existingCollections rest
           (exec (provisionOne updateExisting existingCollections schema) st)
  end.

(** The error, if any, with which the requests of step 2.5 reject when the
    step starts in [st]: on the OAuth2 path, and on the fallback path. *)
Definition oauthRejects (googleAuth : JsValue) (st : Run Net) : option JsError :=
  match collections_getOne (pb st) "users" (net st) with
  | (inl e, _) => Some e
  | (inr users, n) =>
      match collections_update (pb st) (cm_id users) (oauth2Patch googleAuth) n with
      | (inl e, _) => Some e
      | (inr _, _) => None
      end
  end.

Definition globalRejects (settings : gmap string JsValue) (st : Run Net)
    : option JsError :=
  match settings_update (pb st) settings (net st) with
  | (inl e, _) => Some e
  | (inr _, _) => None
  end.

(** The entry, if any, that step 2.5 records when it starts in [st]. *)
Definition settingsEntry (settings : option (gmap string JsValue))
    (st : Run Net) : option ErrorEntry :=
  match settings with
  | None => None
  | Some settings =>
      let googleAuth := default JsUndefined (settings !! "googleAuth") in
      if truthy googleAuth then
        (λ e, mkError "users" (errorMsg e)) <$> oauthRejects googleAuth st
      else
        (λ e, mkError "_settings" (errorMsg e)) <$> globalRejects settings st
  end.

(** The state in which the loop of step 3 starts, and the one it ends in,
    for a run that got past steps 1 and 2. *)
Definition beforeLoop (options : ProvisionData) (st : Run Net) : Run Net :=
  exec (applySettings (settings options)) (exec (openSession options) st).

Definition registry (options : ProvisionData) : list CollectionSchema :=
  default DEFAULT_COLLECTIONS (collections options).

Definition updating (options : ProvisionData) : bool :=
  default false (updateExisting options).

Definition afterLoop (options : ProvisionData)
    (existingCollections : gset string) (st : Run Net) : Run Net :=
  exec (forOf (registry options)
          (provisionOne (updating options) existingCollections))
       (beforeLoop options st).

(** The entries of a run that reaches the loop: the passes over the
    registry, after at most one entry of step 2.5. *)
Definition loopItems (options : ProvisionData) (ex : gset string) (st : Run Net)
    : list (CollectionSchema * Outcome) :=
  outcomes (updating options) ex (registry options) (beforeLoop options st).

Definition settingsErrors (options : ProvisionData) (st : Run Net) : list ErrorEntry :=
  option_list (settingsEntry (settings options) (exec (openSession options) st)).

(** The client before and after a successful authentication. *)
Definition freshClient (options : ProvisionData) : PocketBase :=
  mkClient (pbUrl options) None.
Definition adminClient (options : ProvisionData) (token : string) : PocketBase :=
  mkClient (pbUrl options) (Some token).

(** A fatal failure of steps 1 and 2: the request that is rejected, the
    error [e] it is rejected with, the network state [n] it leaves, and the
    tag under which the run reports it. *)
Definition fatal (options : ProvisionData) (st : Run Net)
    (tag : string) (e : JsError) (n : Net) : Prop :=
  (tag = "_admin"
   ∧ admins_authWithPassword (freshClient options) (adminEmail options)
       (adminPassword options) (net st) = (inl e, n))
  ∨ (tag = "_system"
     ∧ ∃ token n0,
         admins_authWithPassword (freshClient options) (adminEmail options)
           (adminPassword options) (net st) = (inr token, n0)
         ∧ collections_getFullList (adminClient options token) n0 = (inl e, n)).

(** How steps 1 and 2 can end, read off the two requests. *)
Inductive Opening (options : ProvisionData) (st : Run Net) : Type :=
| AuthFailed e n
    (Hauth : admins_authWithPassword (freshClient options) (adminEmail options)
               (adminPassword options) (net st) = (inl e, n))
| FetchFailed token n e n'
    (Hauth : admins_authWithPassword (freshClient options) (adminEmail options)
               (adminPassword options) (net st) = (inr token, n))
    (Hlist : collections_getFullList (adminClient options token) n = (inl e, n'))
| Connected token n all n'
    (Hauth : admins_authWithPassword (freshClient options) (adminEmail options)
               (adminPassword options) (net st) = (inr token, n))
    (Hlist : collections_getFullList (adminClient options token) n = (inr all, n')).

End Outcomes.

(** The value [return result] hands back when the loop has left [r]. *)
Definition finalResult (r : ProvisionResult) : ProvisionResult :=
  if (0 <? length (errors r))%nat then
    mkResult false (created r) (skipped r) (errors r)
      ("Completed with " +:+ pretty (length (errors r)) +:+ " error(s)")
  else if ((length (created r) =? 0)%nat && (0 <? length (skipped r))%nat)%bool then
    mkResult (success r) (created r) (skipped r) (errors r)
      ("All " +:+ pretty (length (skipped r)) +:+ " collection(s) already exist")
  else
    mkResult (success r) (created r) (skipped r) (errors r)
      ("Successfully created " +:+ pretty (length (created r)) +:+ " collection(s)").


(** ** The payload, as the design has it *)

(** The defaults of each field kind as the design lists them: the
    sub-attributes a kind always carries with the value each takes when the
    options omit it; [None] for the kinds whose options are merged in as
    they are. *)
Definition kindDefaults (t : FieldType) : option (list (string * JsValue)) :=
  match t with
  | Ftext =>
      Some [ ("min", JsNumber 0); ("max", JsNumber 0); ("pattern", JsString EmptyString) ]
  | Fnumber =>
      Some [ ("min", JsNull); ("max", JsNull); ("noDecimal", JsBool false) ]
  | Fbool => Some []
  | Fselect =>
      Some [ ("values", JsArray []); ("maxSelect", JsNumber 1) ]
  | Frelation =>
      Some [ ("collectionId", JsString EmptyString); ("cascadeDelete", JsBool false);
             ("maxSelect", JsNumber 1) ]
  | Ffile =>
      Some [ ("maxSelect", JsNumber 1); ("maxSize", JsNumber 5242880);
             ("mimeTypes", JsArray []) ]
  | Feditor => Some [ ("convertUrls", JsBool false) ]
  | Femail | Furl | Fdate | Fjson => None
  end.

(** The options of [field] leave [k] out: no options at all, no such key,
    or a null or undefined value. *)
Definition omitted (field : FieldSchema) (k : string) : bool :=
  nullish (opt_member (f_options field) k).

(** What the wire field must be for a field of a kind with listed defaults:
    the three base attributes, and each listed sub-attribute with its
    default when omitted and the supplied value otherwise; nothing else. *)
Definition carriesDefaults (field : FieldSchema)
    (defaults : list (string * JsValue)) (wire : gmap string JsValue) : Prop :=
  wire !! "name" = Some (JsString (f_name field))
  ∧ wire !! "type" = Some (JsString (fieldTypeName (f_type field)))
  ∧ wire !! "required" = Some (JsBool (default false (f_required field)))
  ∧ Forall (λ kd, wire !! kd.1
                  = Some (if omitted field kd.1 then kd.2
                          else opt_member (f_options field) kd.1)) defaults
  ∧ dom wire = list_to_set ("name" :: "type" :: "required" :: defaults.*1).

(** What it must be for the other kinds: the caller's options laid over the
    three base attributes. *)
Definition mergesOptions (field : FieldSchema) (wire : gmap string JsValue) : Prop :=
  ∀ k, wire !! k
       = match f_options field ≫= (λ opts, opts !! k) with
         | Some v => Some v
         | None =>
             ({[ "name" := JsString (f_name field);
                 "type" := JsString (fieldTypeName (f_type field));
                 "required" := JsBool (default false (f_required field)) ]}
                : gmap string JsValue) !! k
         end.

Definition wireFieldCorrect (field : FieldSchema) (wire : gmap string JsValue) : Prop :=
  match kindDefaults (f_type field) with
  | Some defaults => carriesDefaults field defaults wire
  | None => mergesOptions field wire
  end.


(** ** Servers that keep their collections

    [stored n] is the set of names of the collections the server holds in
    the network state [n].  No request makes the server drop a collection, a
    listing shows exactly the collections held, and a creation that resolves
    leaves the collection held. *)
Class KeepsCollections {Net : Type} `{Api : PocketBaseApi Net}
    (stored : Net → gset string) : Prop := {
  listing_shows_stored c n all n' :
    collections_getFullList c n = (inr all, n') →
    list_to_set (map cm_name all) = stored n;
  listing_keeps c n :
    stored n ⊆ stored (collections_getFullList c n).2;
  auth_keeps c email password n :
    stored n ⊆ stored (admins_authWithPassword c email password n).2;
  getOne_keeps c x n :
    stored n ⊆ stored (collections_getOne c x n).2;
  update_keeps c i body n :
    stored n ⊆ stored (collections_update c i body n).2;
  settings_keeps c values n :
    stored n ⊆ stored (settings_update c values n).2;
  create_keeps c payload n :
    stored n ⊆ stored (collections_create c payload n).2;
  create_stores c payload n n' :
    collections_create c payload n = (inr tt, n') →
    p_name payload ∈ stored n'
}.

(** ** Reading a result *)

(** [n] shows up in [created], bare or with the update mark. *)
Definition inCreated (n : string) (r : ProvisionResult) : Prop :=
  n ∈ created r ∨ n +:+ updatedTag ∈ created r.
Definition inSkipped (n : string) (r : ProvisionResult) : Prop :=
  n ∈ skipped r.
Definition inErrors (n : string) (r : ProvisionResult) : Prop :=
  n ∈ map collection (errors r).

Definition exactlyOne (P Q R : Prop) : Prop :=
  (P ∧ ¬ Q ∧ ¬ R) ∨ (¬ P ∧ Q ∧ ¬ R) ∨ (¬ P ∧ ¬ Q ∧ R).

Definition disjointLists (xs ys : list string) : Prop :=
  ∀ x, x ∈ xs → x ∈ ys → False.

(** The partition of the registry by the result: each name in exactly one of
    the three sequences, which share no entry. *)
Definition partitioned (names : list string) (r : ProvisionResult) : Prop :=
  (∀ n, n ∈ names → exactlyOne (inCreated n r) (inSkipped n r) (inErrors n r))
  ∧ disjointLists (created r) (skipped r)
  ∧ disjointLists (created r) (map collection (errors r))
  ∧ disjointLists (skipped r) (map collection (errors r)).

(** No name of the registry is another one followed by the update mark. *)
Definition unmarked (names : list string) : Prop :=
  ∀ n m, n ∈ names → m ∈ names → m ≠ n +:+ updatedTag.

(** ** A scripted server

    A concrete network for running the model: the collections the server
    holds, and a script saying, request after request, whether the next one
    is rejected ([Some e]) or served ([None], also once the script is
    over). *)
Module Scripted.

Record Server : Type := mkServer {
  held : list CollectionModel;
  script : list (option JsError)
}.

Definition next (s : Server) : option JsError * Server :=
  match script s with
  | [] => (None, s)
  | o :: rest => (o, mkServer (held s) rest)
  end.

Definition served {A} (serve : Server → (JsError + A) * Server)
    (s : Server) : (JsError + A) * Server :=
  match next s with
  | (Some e, s') => (inl e, s')
  | (None, s') => serve s'
  end.

Definition holds (n : string) (s : Server) : bool :=
  existsb (λ m, String.eqb (cm_name m) n) (held s).

Definition notFound : JsError :=
  ErrorInstance "The requested resource wasn't found.".

Definition notUnique : JsError :=
  ErrorInstance "Failed to create record.".

#[global] Instance api : PocketBaseApi Server := {
  admins_authWithPassword _ _ _ :=
    served (λ s, (inr "admin-token", s));
  collections_getFullList _ :=
    served (λ s, (inr (held s), s));
  collections_getOne _ n :=
    served (λ s, match find (λ m, String.eqb (cm_name m) n) (held s) with
                 | Some m => (inr m, s)
                 | None => (inl notFound, s)
                 end);
  collections_create _ payload :=
    served (λ s, if holds (p_name payload) s then (inl notUnique, s)
                 else (inr tt,
                       mkServer (held s ++ [mkModel (p_name payload) (p_name payload)])
                                (script s)));
  collections_update _ _ _ :=
    served (λ s, (inr tt, s));
  settings_update _ _ :=
    served (λ s, (inr tt, s));
  health_check _ :=
    served (λ s, (inr (mkHealth 200 "API is healthy."), s))
}.

Definition stored (s : Server) : gset string :=
  list_to_set (map cm_name (held s)).

Definition start (s : Server) : Run Server :=
  mkRun s (mkClient EmptyString None) emptyResult [].

Definition options (registry : list CollectionSchema) (update : bool)
    (settings : option (gmap string JsValue)) : ProvisionData :=
  mkOptions "http://127.0.0.1:8090" "admin@example.com" "secret"
    (Some registry) (Some update) settings.

Definition schema (n : string) : CollectionSchema :=
  mkSchema n Cbase [ mkField "title" Ftext (Some true) None ] None
    authOnly authOnly authOnly authOnly authOnly.

Definition googleAuth : gmap string JsValue :=
  {[ "googleAuth" :=
       JsObject [ ("enabled", JsBool true);
                  ("clientId", JsString "id");
                  ("clientSecret", JsString "secret") ] ]}.

End Scripted.

(** ** Callbacks to run the model with *)

(** The callback of the setup script (lines 206-216 of the script): it
    prints each message with the helper its first character selects.
    [substring(2)] drops the glyph, three bytes here, and the blank. *)
Inductive ConsoleLine : Type :=
| LogSuccess (text : string)
| LogError (text : string)
| LogInfo (text : string).

Definition substring2 (msg : string) : string :=
  String.substring 4 (String.length msg - 4) msg.

Definition setupCallback : Callback (list ConsoleLine) :=
  λ msg console,
    let line :=
      if String.prefix "✓" msg then LogSuccess (substring2 msg)
      else if String.prefix "✗" msg then LogError (substring2 msg)
      else if String.prefix "○" msg then LogInfo (substring2 msg)
      else LogInfo msg in
    (inr tt, (console ++ [line])%list).

(** A callback whose output has gone away: it throws on the messages that
    start with [start], and does nothing on the others. *)
Definition throwingOn (start : string) : Callback unit :=
  λ msg u,
    if String.prefix start msg then (inl (ErrorInstance "write EPIPE"), u)
    else (inr tt, u).

(** * The rest of the library *)

(** ** schemas.ts: the schema helpers *)

(** [@request.auth.id != ""], the rule both helpers fall back to. *)
Definition authExpr : string := "@request.auth.id != " +:+ dq +:+ dq.

(** [Partial<Omit<CollectionSchema, 'name' | 'fields'>>]: an absent key
    reads as [undefined]. *)
Record SchemaOptions : Type := mkSchemaOptions {
  o_type : option CollectionType;
  o_indexes : option (list string);
  o_listRule : Rule;
  o_viewRule : Rule;
  o_createRule : Rule;
  o_updateRule : Rule;
  o_deleteRule : Rule
}.

(** [{}] *)
Definition noSchemaOptions : SchemaOptions :=
  mkSchemaOptions None None RuleUndefined RuleUndefined RuleUndefined
    RuleUndefined RuleUndefined.

(** [rule ?? fallback] *)
Definition ruleOr (rule : Rule) (fallback : string) : Rule :=
  match rule with
  | RuleExpr expr => RuleExpr expr
  | RuleNull | RuleUndefined => RuleExpr fallback
  end.

Definition createCollectionSchema (name : string) (fields : list FieldSchema)
    (options : option SchemaOptions) : CollectionSchema :=
  let options := default noSchemaOptions options in
  mkSchema name
    (default Cbase (o_type options))
    fields
    (o_indexes options)
    (ruleOr (o_listRule options) authExpr)
    (ruleOr (o_viewRule options) authExpr)
    (ruleOr (o_createRule options) authExpr)
    (ruleOr (o_updateRule options) authExpr)
    (ruleOr (o_deleteRule options) authExpr).

Definition createPublicCollectionSchema (name : string) (fields : list FieldSchema)
    (options : option SchemaOptions) : CollectionSchema :=
  let options := default noSchemaOptions options in
  mkSchema name
    (default Cbase (o_type options))
    fields
    (o_indexes options)
    (RuleExpr EmptyString)
    (RuleExpr EmptyString)
    (ruleOr (o_createRule options) authExpr)
    (ruleOr (o_updateRule options) authExpr)
    (ruleOr (o_deleteRule options) authExpr).

(** A rule that is an expression, neither [null] nor absent. *)
Definition isExpr (r : Rule) : Prop := ∃ expr, r = RuleExpr expr.

(** What a helper makes of a rule the caller asked for. *)
Definition granted (asked sent : Rule) : Prop :=
  isExpr sent
  ∧ (∀ expr, asked = RuleExpr expr → sent = RuleExpr expr)
  ∧ (asked = RuleNull ∨ asked = RuleUndefined → sent = authOnly).

(** ** test-utils.ts *)

Inductive TestStatus : Type := TIdle | TRunning | TPassed | TFailed | TSkipped.

#[global] Instance TestStatus_eq_dec : EqDecision TestStatus.
Proof. solve_decision. Defined.

(** Durations are whole milliseconds, as [runTest] produces them. *)
Record TestResult : Type := mkTest {
  t_id : string;
  t_name : string;
  t_description : string;
  t_status : TestStatus;
  t_duration : option Z;
  t_error : option string;
  t_details : option string
}.

Record TestGroup : Type := mkGroup {
  g_id : string;
  g_name : string;
  g_icon : string;
  g_description : string;
  g_tests : list TestResult
}.

Definition createTest (id name description : string) (status : option TestStatus)
    : TestResult :=
  mkTest id name description (default TIdle status) None None None.

Definition createTestGroup (id name icon description : string)
    (tests : list TestResult) : TestGroup :=
  mkGroup id name icon description tests.

Record GroupSummary : Type := mkSummary {
  total : nat;
  passed : nat;
  failed : nat;
  running : nat
}.

Definition getGroupSummary (tests : list TestResult) : GroupSummary :=
  {| total := length tests;
     passed := length (filter (λ t, t_status t = TPassed) tests);
     failed := length (filter (λ t, t_status t = TFailed) tests);
     running := length (filter (λ t, t_status t = TRunning) tests) |}.

(** Summaries add up field by field. *)
Definition addSummary (a b : GroupSummary) : GroupSummary :=
  mkSummary (total a + total b) (passed a + passed b) (failed a + failed b)
    (running a + running b).

(** A test that counts as passed, failed or running. *)
Definition settled (t : TestResult) : Prop :=
  t_status t = TPassed ∨ t_status t = TFailed ∨ t_status t = TRunning.


(** [generateTestEmail] and [generateTestPassword].  The two readings of
    the platform are arguments: [timestamp] is [Date.now()], and [random]
    is the slice of [Math.random().toString(36)]. *)
Definition generateTestEmail (timestamp : N) (random : string) : string :=
  "test_" +:+ pretty timestamp +:+ "_" +:+ random +:+ "@fstack.test".

Definition generateTestPassword (timestamp : N) (random : string) : string :=
  "TestPass_" +:+ pretty timestamp +:+ "_" +:+ random +:+ "!".

(** The character [c] does not occur in [s]. *)
Fixpoint lacks (c : Ascii.ascii) (s : string) : Prop :=
  match s with
  | EmptyString => True
  | String a rest => a ≠ c ∧ lacks c rest
  end.

Definition underscore : Ascii.ascii := Ascii.ascii_of_nat 95.

(** What [runTest] resolves to. *)
Record TestRun (T : Type) : Type := mkTestRun {
  run_success : bool;
  run_result : option T;
  run_error : option string;
  run_duration : Z
}.
Arguments mkTestRun {T}.
Arguments run_success {T}.
Arguments run_result {T}.
Arguments run_error {T}.
Arguments run_duration {T}.

(** [runTest].  The clock is the platform's: [now] is the reading of
    [performance.now()] in a state, and [roundedSpan start stop] stands for
    [Math.round(stop - start)]. *)
Definition runTest {S Instant T} (now : S → Instant)
    (roundedSpan : Instant → Instant → Z) (testFn : Js S T) : Js S (TestRun T) :=
  (st <- get ;;
   let start := now st in
   try_catch
     (result <- testFn ;;
      st' <- get ;;
      let duration := roundedSpan start (now st') in
      ret (mkTestRun true (Some result) None duration))
     (λ error,
        st' <- get ;;
        let duration := roundedSpan start (now st') in
        ret (mkTestRun false None (Some (errorMsg error)) duration)))%js.

(** ** +page.svelte: the state of the dashboard *)

(** [Partial<TestResult>]: [None] for an absent key; for the optional
    fields a key can be there with the value [undefined]. *)
Record TestUpdates : Type := mkUpdates {
  u_id : option string;
  u_name : option string;
  u_description : option string;
  u_status : option TestStatus;
  u_duration : option (option Z);
  u_error : option (option string);
  u_details : option (option string)
}.

(** [{ ...test, ...updates }] *)
Definition spreadUpdates (test : TestResult) (updates : TestUpdates) : TestResult :=
  mkTest (default (t_id test) (u_id updates))
         (default (t_name test) (u_name updates))
         (default (t_description test) (u_description updates))
         (default (t_status test) (u_status updates))
         (default (t_duration test) (u_duration updates))
         (default (t_error test) (u_error updates))
         (default (t_details test) (u_details updates)).

(** [updateTest]: the new value of [testGroups]. *)
Definition updateTest (groupId testId : string) (updates : TestUpdates)
    (testGroups : list TestGroup) : list TestGroup :=
  map (λ group,
         if decide (g_id group = groupId) then
           mkGroup (g_id group) (g_name group) (g_icon group) (g_description group)
             (map (λ test,
                     if decide (t_id test = testId) then spreadUpdates test updates
                     else test)
                  (g_tests group))
         else group)
      testGroups.

(** The inner [map] of [updateTest]. *)
Definition updateTests (testId : string) (updates : TestUpdates)
    (tests : list TestResult) : list TestResult :=
  map (λ test, if decide (t_id test = testId) then spreadUpdates test updates
               else test) tests.

(** [getTotalSummary] *)
Definition getTotalSummary (testGroups : list TestGroup) : GroupSummary :=
  let allTests := testGroups ≫= g_tests in
  getGroupSummary allTests.

(** ** The timeline page: realtime events on the list of tweets *)

Record RecordModel : Type := mkRecord {
  rec_id : string;
  rec_fields : list (string * JsValue)
}.

(** The callback of [pb.collection("tweets").subscribe("*", ...)]: the new
    value of [tweets] after the event [e]. *)
Definition onTweetEvent (action : string) (record : RecordModel)
    (tweets : list RecordModel) : list RecordModel :=
  if String.eqb action "create" then record :: tweets
  else if String.eqb action "delete" then
    filter (λ t, rec_id t ≠ rec_id record) tweets
  else if String.eqb action "update" then
    map (λ t, if decide (rec_id t = rec_id record) then record else t) tweets
  else tweets.

(** ** pocketbase.ts *)

(** [s.split(sep)[0]]: what comes before the first [sep]. *)
Fixpoint beforeFirst (sep : Ascii.ascii) (s : string) : string :=
  match s with
  | EmptyString => EmptyString
  | String c rest =>
      if Ascii.eqb c sep then EmptyString else String c (beforeFirst sep rest)
  end.

Definition atSign : Ascii.ascii := Ascii.ascii_of_nat 64.

(** The [data] object of [registerUser]. *)
Record RegisterData : Type := mkRegisterData {
  reg_email : string;
  reg_password : string;
  reg_passwordConfirm : string;
  reg_name : string
}.

(** [name || email.split('@')[0]] *)
Definition registerUserData (email password passwordConfirm : string)
    (name : option string) : RegisterData :=
  mkRegisterData email password passwordConfirm
    (match name with
     | Some n => if String.eqb n EmptyString then beforeFirst atSign email else n
     | None => beforeFirst atSign email
     end).

(** The requests on records that [pocketbase.ts] sends.  A rejection hands
    the thrown value itself to the [catch] clause. *)
Class RecordsApi (Net : Type) : Type := {
  collection_create :
    PocketBase → string → RegisterData → Net → (JsValue + RecordModel) * Net;
  collection_getList :
    PocketBase → string → Z → Z → Net → (JsValue + list RecordModel) * Net
}.

Definition registerUser {Net} `{Records : RecordsApi Net} (pb : PocketBase)
    (email password passwordConfirm : string) (name : option string)
    : Net → (JsValue + RecordModel) * Net :=
  collection_create pb "users"
    (registerUserData email password passwordConfirm name).

Record CollectionCheckResult : Type := mkCheck {
  chk_exists : bool;
  chk_accessible : bool;
  chk_error : option string
}.

(** ['status' in error], for a value that is an object. *)
Definition hasKey (k : string) (v : JsValue) : bool :=
  match v with
  | JsObject kvs => existsb (λ kv, String.eqb k kv.1) kvs
  | _ => false
  end.

(** [typeof v === 'object'] *)
Definition typeofObject (v : JsValue) : bool :=
  match v with
  | JsNull | JsArray _ | JsObject _ => true
  | _ => false
  end.

Section CheckCollection.
Context {Net : Type} `{Records : RecordsApi Net}.

(** [String(v)] is left to the platform; a string is its own rendering. *)
Variable jsString : JsValue → string.

Definition text (v : JsValue) : string :=
  match v with
  | JsString s => s
  | _ => jsString v
  end.

(** The [catch] clause of [checkCollection]. *)
Definition classifyFailure (collectionName : string) (error : JsValue)
    : CollectionCheckResult :=
  if (truthy error && typeofObject error && hasKey "status" error)%bool then
    let status := member error "status" in
    let message :=
      if truthy (member error "message") then member error "message"
      else JsString EmptyString in
    match status with
    | JsNumber 404%Z =>
        mkCheck false false
          (Some ("Collection " +:+ quoted collectionName
                 +:+ " not found. Create it in PocketBase Admin."))
    | JsNumber 403%Z =>
        mkCheck true false
          (Some ("Collection " +:+ quoted collectionName
                 +:+ " exists but API rules block access. Set List/View rules in PocketBase Admin."))
    | _ =>
        mkCheck false false (Some ("Error checking collection: " +:+ text message))
    end
  else
    mkCheck false false (Some (text error)).

Definition checkCollection (pb : PocketBase) (collectionName : string)
    : Net → CollectionCheckResult * Net :=
  λ n, match collection_getList pb collectionName 1 1 n with
       | (inr _, n') => (mkCheck true true None, n')
       | (inl error, n') => (classifyFailure collectionName error, n')
       end.

Definition collectionExists (pb : PocketBase) (collectionName : string)
    : Net → bool * Net :=
  λ n, let '(result, n') := checkCollection pb collectionName n in
       ((chk_exists result && chk_accessible result)%bool, n').

End CheckCollection.

(** * Properties *)

(** ** The loop, pass by pass *)

Section LoopFacts.
Context {Net : Type} `{Api : PocketBaseApi Net}.
Implicit Types (st : Run Net) (ex : gset string) (upd : bool).

Ltac run_js :=
  unfold exec, outcome, provisionOne, attempt, rejects, try_catch, bind, call,
    push_created, push_skipped, push_error, update_result, onProgressDefault,
    modify, ret, set_result, set_net; simpl.

Ltac split_requests :=
  repeat match goal with
         | |- context [collections_getOne ?c ?n ?s] =>
             destruct (collections_getOne c n s) as [[?|?] ?]; simpl
         | |- context [collections_update ?c ?i ?b ?s] =>
             destruct (collections_update c i b s) as [[?|[]] ?]; simpl
         | |- context [collections_create ?c ?p ?s] =>
             destruct (collections_create c p s) as [[?|[]] ?]; simpl
         end.

Ltac by_cases_of_pass upd ex schema :=
  run_js;
  destruct (decide (name schema ∈ ex)); [destruct upd|]; simpl;
  split_requests; reflexivity.

Lemma provisionOne_returns upd ex schema st :
  provisionOne upd ex schema st
  = (inr tt, exec (provisionOne upd ex schema) st).
Proof. by_cases_of_pass upd ex schema. Qed.

Lemma provisionOne_result upd ex schema st :
  result (exec (provisionOne upd ex schema) st)
  = record schema (attempt upd ex schema st) (result st).
Proof. by_cases_of_pass upd ex schema. Qed.

Lemma provisionOne_pb upd ex schema st :
  pb (exec (provisionOne upd ex schema) st) = pb st.
Proof. by_cases_of_pass upd ex schema. Qed.

Lemma forOf_app {S A} (xs ys : list A) (body : A → Js S unit) s :
  (∀ x s', body x s' = (inr tt, exec (body x) s')) →
  forOf (xs ++ ys) body s = forOf ys body (exec (forOf xs body) s).
Proof.
  intros Hbody. revert s. induction xs as [|x xs IH]; intros s; [reflexivity|].
  simpl. unfold bind, exec. rewrite (Hbody x s). simpl.
  rewrite IH. unfold exec, bind. simpl. rewrite (Hbody x s). reflexivity.
Qed.

Lemma loop_returns upd ex schemas st :
  forOf schemas (provisionOne upd ex) st
  = (inr tt, exec (forOf schemas (provisionOne upd ex)) st).
Proof.
  revert st. induction schemas as [|c cs IH]; intros st; [reflexivity|].
  simpl. unfold bind, exec. rewrite provisionOne_returns. simpl.
  rewrite IH. reflexivity.
Qed.

Lemma loop_step upd ex c cs st :
  exec (forOf (c :: cs) (provisionOne upd ex)) st
  = exec (forOf cs (provisionOne upd ex)) (exec (provisionOne upd ex c) st).
Proof.
  unfold exec at 1. simpl. unfold bind. rewrite provisionOne_returns. reflexivity.
Qed.

Lemma loop_result upd ex schemas st :
  result (exec (forOf schemas (provisionOne upd ex)) st)
  = recordAll (outcomes upd ex schemas st) (result st).
Proof.
  revert st. induction schemas as [|c cs IH]; intros st; [reflexivity|].
  rewrite loop_step, IH, provisionOne_result. reflexivity.
Qed.

Lemma loop_pb upd ex schemas st :
  pb (exec (forOf schemas (provisionOne upd ex)) st) = pb st.
Proof.
  revert st. induction schemas as [|c cs IH]; intros st; [reflexivity|].
  rewrite loop_step, IH, provisionOne_pb. reflexivity.
Qed.

Lemma outcomes_fst upd ex schemas st :
  (outcomes upd ex schemas st).*1 = schemas.
Proof.
  revert st. induction schemas as [|c cs IH]; intros st; [reflexivity|].
  simpl. by rewrite IH.
Qed.

End LoopFacts.

Lemma recordAll_created items r :
  created (recordAll items r) = (created r ++ createdOf items)%list.
Proof.
  revert r. induction items as [|[c o] items IH]; intros r.
  - simpl. by rewrite app_nil_r.
  - unfold recordAll in *. simpl. rewrite IH. unfold createdOf. simpl.
    destruct o; simpl; rewrite <- ?app_assoc; reflexivity.
Qed.
Lemma recordAll_skipped items r :
  skipped (recordAll items r) = (skipped r ++ skippedOf items)%list.
Proof.
  revert r. induction items as [|[c o] items IH]; intros r.
  - simpl. by rewrite app_nil_r.
  - unfold recordAll in *. simpl. rewrite IH. unfold skippedOf. simpl.
    destruct o; simpl; rewrite <- ?app_assoc; reflexivity.
Qed.
Lemma recordAll_errors items r :
  errors (recordAll items r) = (errors r ++ errorsOf items)%list.
Proof.
  revert r. induction items as [|[c o] items IH]; intros r.
  - simpl. by rewrite app_nil_r.
  - unfold recordAll in *. simpl. rewrite IH. unfold errorsOf. simpl.
    destruct o; simpl; rewrite <- ?app_assoc; reflexivity.
Qed.
Lemma recordAll_success items r :
  success (recordAll items r) = success r.
Proof.
  revert r. induction items as [|[c o] items IH]; intros r; [reflexivity|].
  unfold recordAll in *. simpl. rewrite IH. by destruct o.
Qed.

(** ** The phases of a run *)

Section RunFacts.
Context {Net : Type} `{Api : PocketBaseApi Net}.
Implicit Types (st : Run Net) (ex : gset string) (upd : bool).

Ltac run_js :=
  unfold exec, outcome, provisionCollections, openSession, connect,
  applySettings, settingsEntry, oauthRejects, globalRejects, finalize,
    pb_admins_authWithPassword, pb_authStore_clear, try_catch, bind, call, get,
    push_created, push_skipped, push_error, set_success, set_message,
    update_result, onProgressDefault,
    modify, ret, set_result, set_net, set_pb; simpl.

(** *** Steps 1 and 2 *)

Lemma openSession_auth_failed options st e n :
  admins_authWithPassword (freshClient options) (adminEmail options)
    (adminPassword options) (net st) = (inl e, n) →
  openSession options st
  = (inr None,
     mkRun n (freshClient options)
       (mkResult false [] [] [mkError "_admin" (errorMsg e)]
          ("Admin authentication failed: " +:+ errorMsg e))
       (progress st ++ ["Authenticating as admin..."])).
Proof. intros Hauth. run_js. unfold freshClient in Hauth. rewrite Hauth. reflexivity. Qed.

Lemma openSession_fetch_failed options st token n e n' :
  admins_authWithPassword (freshClient options) (adminEmail options)
    (adminPassword options) (net st) = (inr token, n) →
  collections_getFullList (adminClient options token) n = (inl e, n') →
  openSession options st
  = (inr None,
     mkRun n' (adminClient options token)
       (mkResult false [] [] [mkError "_system" (errorMsg e)]
          ("Failed to fetch collections: " +:+ errorMsg e))
       (progress st ++ ["Authenticating as admin...";
                        "✓ Admin authentication successful";
                        "Fetching existing collections..."])).
Proof.
  intros Hauth Hlist. run_js. unfold freshClient, adminClient in *.
  rewrite Hauth. simpl. rewrite Hlist. simpl. rewrite <- !app_assoc. reflexivity.
Qed.

Lemma openSession_connected options st token n all n' :
  admins_authWithPassword (freshClient options) (adminEmail options)
    (adminPassword options) (net st) = (inr token, n) →
  collections_getFullList (adminClient options token) n = (inr all, n') →
  ∃ log,
    openSession options st
    = (inr (Some (list_to_set (map cm_name all))),
       mkRun n' (adminClient options token) emptyResult log).
Proof.
  intros Hauth Hlist. run_js. unfold freshClient, adminClient in *.
  rewrite Hauth. simpl. rewrite Hlist. simpl. eauto.
Qed.

Lemma opening options st : Opening options st.
Proof.
  destruct (admins_authWithPassword (freshClient options) (adminEmail options)
              (adminPassword options) (net st)) as [[e|token] n] eqn:Hauth.
  - by eapply AuthFailed.
  - destruct (collections_getFullList (adminClient options token) n)
      as [[e|all] n'] eqn:Hlist.
    + by eapply FetchFailed.
    + by eapply Connected.
Qed.

Lemma openSession_returns options st :
  ∃ v, openSession options st = (inr v, exec (openSession options) st).
Proof.
  destruct (opening options st).
  - unfold exec. rewrite (openSession_auth_failed _ _ _ _ Hauth). eauto.
  - unfold exec. rewrite (openSession_fetch_failed _ _ _ _ _ _ Hauth Hlist). eauto.
  - destruct (openSession_connected _ _ _ _ _ _ Hauth Hlist) as [log Hrun].
    unfold exec. rewrite Hrun. eauto.
Qed.

Lemma openSession_reached options st ex :
  outcome (openSession options) st = inr (Some ex) →
  openSession options st = (inr (Some ex), exec (openSession options) st)
  ∧ result (exec (openSession options) st) = emptyResult
  ∧ ∃ token, pb (exec (openSession options) st) = adminClient options token.
Proof.
  intros Hout. destruct (opening options st).
  - unfold outcome in Hout. rewrite (openSession_auth_failed _ _ _ _ Hauth) in Hout. discriminate.
  - unfold outcome in Hout. rewrite (openSession_fetch_failed _ _ _ _ _ _ Hauth Hlist) in Hout. discriminate.
  - destruct (openSession_connected _ _ _ _ _ _ Hauth Hlist) as [log Hrun].
    unfold outcome, exec in *. rewrite Hrun in *. simpl in *.
    split; [congruence|]. split; [reflexivity|]. eauto.
Qed.

(** *** Step 2.5 *)

Lemma applySettings_returns settings st :
  applySettings settings st = (inr tt, exec (applySettings settings) st).
Proof.
  run_js. destruct settings as [s|]; [|reflexivity].
  destruct (truthy _); simpl.
  - destruct (collections_getOne _ _ _) as [[?|?] ?]; simpl; [reflexivity|].
    destruct (collections_update _ _ _ _) as [[?|[]] ?]; reflexivity.
  - destruct (settings_update _ _ _) as [[?|[]] ?]; reflexivity.
Qed.

Lemma applySettings_result settings st :
  result (exec (applySettings settings) st)
  = match settingsEntry settings st with
    | Some e => addError e (result st)
    | None => result st
    end.
Proof.
  run_js. destruct settings as [s|]; [|reflexivity].
  destruct (truthy _); simpl.
  - destruct (collections_getOne _ _ _) as [[?|?] ?]; simpl; [reflexivity|].
    destruct (collections_update _ _ _ _) as [[?|[]] ?]; reflexivity.
  - destruct (settings_update _ _ _) as [[?|[]] ?]; reflexivity.
Qed.

Lemma applySettings_pb settings st :
  pb (exec (applySettings settings) st) = pb st.
Proof.
  run_js. destruct settings as [s|]; [|reflexivity].
  destruct (truthy _); simpl.
  - destruct (collections_getOne _ _ _) as [[?|?] ?]; simpl; [reflexivity|].
    destruct (collections_update _ _ _ _) as [[?|[]] ?]; reflexivity.
  - destruct (settings_update _ _ _) as [[?|[]] ?]; reflexivity.
Qed.

(** *** The end of the run *)

Lemma run_reaching_loop options st ex :
  outcome (openSession options) st = inr (Some ex) →
  provisionCollections options st
  = (inr (finalResult (result (afterLoop options ex st))),
     mkRun (net (afterLoop options ex st)) (freshClient options)
       (finalResult (result (afterLoop options ex st)))
       (progress (afterLoop options ex st))).
Proof.
  intros Hout. destruct (openSession_reached _ _ _ Hout) as (Hrun & _ & token & Hpb).
  unfold provisionCollections, bind. rewrite Hrun.
  rewrite applySettings_returns.
  fold (beforeLoop options st). fold (registry options). fold (updating options).
  rewrite loop_returns. fold (afterLoop options ex st).
  assert (pb (afterLoop options ex st) = adminClient options token) as Hpb'.
  { unfold afterLoop, beforeLoop. by rewrite loop_pb, applySettings_pb. }
  destruct (afterLoop options ex st) as [n c r log]. simpl in Hpb'. subst c.
  unfold finalize, finalResult, pb_authStore_clear, get, bind, modify, ret,
    set_success, set_message, update_result, set_pb, set_result, freshClient.
  simpl.
  destruct (0 <? length _)%nat; simpl; [reflexivity|].
  destruct (_ && _)%bool; reflexivity.
Qed.

Lemma run_returning_early options st :
  outcome (openSession options) st = inr None →
  provisionCollections options st
  = (inr (result (exec (openSession options) st)), exec (openSession options) st).
Proof.
  intros Hout. destruct (openSession_returns options st) as [v Hrun].
  unfold outcome in Hout. rewrite Hrun in Hout. injection Hout as ->.
  unfold provisionCollections, bind. by rewrite Hrun.
Qed.

End RunFacts.

(** ** Strings with the update mark *)

Lemma length_append (a b : string) :
  String.length (a +:+ b) = String.length a + String.length b.
Proof. induction a as [|c a IH]; simpl; [reflexivity|]. by rewrite IH. Qed.

Lemma append_cancel_suffix (a b t : string) : a +:+ t = b +:+ t → a = b.
Proof.
  revert b. induction a as [|c a IH]; intros [|d b] Heq; simpl in *.
  - reflexivity.
  - apply (f_equal String.length) in Heq.
    rewrite ?length_append in Heq; simpl in Heq; rewrite ?length_append in Heq. lia.
  - apply (f_equal String.length) in Heq.
    rewrite ?length_append in Heq; simpl in Heq; rewrite ?length_append in Heq. lia.
  - injection Heq as -> Heq. f_equal. by apply IH.
Qed.

Lemma short_not_marked (tag n : string) :
  String.length tag < 10 → tag ≠ n +:+ updatedTag.
Proof.
  intros Hlen Heq. apply (f_equal String.length) in Heq.
  rewrite length_append in Heq. simpl in Heq. lia.
Qed.

(** ** Entries and outcomes *)

Section Entries.
Implicit Types (items : list (CollectionSchema * Outcome)).

Lemma elem_of_createdOf items x :
  x ∈ createdOf items ↔
  (∃ c, ((c, Created) ∈ items ∧ x = name c)
        ∨ ((c, Updated) ∈ items ∧ x = name c +:+ updatedTag)).
Proof.
  unfold createdOf. rewrite list_elem_of_omap. split.
  - intros ([c o] & Hin & Heq). exists c. destruct o; simplify_eq/=; auto.
  - intros (c & [[Hin ->]|[Hin ->]]); eexists; (split; [exact Hin|reflexivity]).
Qed.

Lemma elem_of_skippedOf items x :
  x ∈ skippedOf items ↔ (∃ c, (c, Skipped) ∈ items ∧ x = name c).
Proof.
  unfold skippedOf. rewrite list_elem_of_omap. split.
  - intros ([c o] & Hin & Heq). exists c. destruct o; simplify_eq/=; auto.
  - intros (c & Hin & ->). eexists; (split; [exact Hin|reflexivity]).
Qed.

Lemma elem_of_errorsOf items x :
  x ∈ map collection (errorsOf items)
  ↔ (∃ c msg, (c, Failed msg) ∈ items ∧ x = name c).
Proof.
  unfold errorsOf. change (map collection ?l) with (collection <$> l).
  rewrite list_elem_of_fmap. split.
  - intros (e & -> & He). apply list_elem_of_omap in He as ([c o] & Hin & Heq).
    exists c. destruct o; simplify_eq/=; eauto.
  - intros (c & msg & Hin & ->). exists (mkError (name c) msg). split; [reflexivity|].
    apply list_elem_of_omap. eexists; (split; [exact Hin|reflexivity]).
Qed.

Lemma item_named items c o : (c, o) ∈ items → name c ∈ namesOf items.
Proof.
  intros Hin. unfold namesOf. change (map name ?l) with (name <$> l).
  apply list_elem_of_fmap. exists c. split; [reflexivity|].
  apply list_elem_of_fmap. by exists (c, o).
Qed.

Lemma named_item items n : n ∈ namesOf items → ∃ c o, (c, o) ∈ items ∧ name c = n.
Proof.
  unfold namesOf. change (map name ?l) with (name <$> l).
  intros (c & -> & Hc)%list_elem_of_fmap.
  apply list_elem_of_fmap in Hc as ([c' o] & -> & Hin). eauto.
Qed.

Lemma one_outcome_per_name items c1 o1 c2 o2 :
  NoDup (namesOf items) →
  (c1, o1) ∈ items → (c2, o2) ∈ items → name c1 = name c2 → o1 = o2.
Proof.
  unfold namesOf. induction items as [|[c o] items IH]; intros Hnd H1 H2 Heq.
  - by apply elem_of_nil in H1.
  - simpl in Hnd. apply NoDup_cons in Hnd as [Hfresh Hnd].
    apply elem_of_cons in H1 as [H1|H1]; apply elem_of_cons in H2 as [H2|H2];
      simplify_eq/=.
    + reflexivity.
    + exfalso. apply Hfresh. rewrite Heq. by eapply item_named.
    + exfalso. apply Hfresh. rewrite <- Heq. by eapply item_named.
    + by eapply IH.
Qed.

End Entries.

(** ** The partition, on the entries of the loop *)

Section Partition.
Implicit Types (items : list (CollectionSchema * Outcome)).

Variables (items : list (CollectionSchema * Outcome)) (pre : list ErrorEntry).
Hypothesis distinct : NoDup (namesOf items).
Hypothesis plain : unmarked (namesOf items).
Hypothesis foreign : ∀ e, e ∈ pre →
  (collection e ∉ namesOf items) ∧ ∀ n, collection e ≠ n +:+ updatedTag.

Lemma created_outcome c o :
  (c, o) ∈ items →
  name c ∈ createdOf items ∨ name c +:+ updatedTag ∈ createdOf items →
  o = Created ∨ o = Updated.
Proof.
  intros Hin [Hc|Hc]; apply elem_of_createdOf in Hc as (c' & [[Hin' Heq]|[Hin' Heq]]).
  - left. symmetry. by eapply one_outcome_per_name.
  - exfalso. apply (plain (name c') (name c)); [by eapply item_named..|done].
  - exfalso. apply (plain (name c) (name c')); [by eapply item_named..|by symmetry].
  - right. apply append_cancel_suffix in Heq. symmetry.
    by eapply one_outcome_per_name.
Qed.

Lemma skipped_outcome c o :
  (c, o) ∈ items → name c ∈ skippedOf items → o = Skipped.
Proof.
  intros Hin (c' & Hin' & Heq)%elem_of_skippedOf.
  symmetry. by eapply one_outcome_per_name.
Qed.

Lemma tags_app (es1 es2 : list ErrorEntry) x :
  x ∈ map collection (es1 ++ es2)
  ↔ x ∈ map collection es1 ∨ x ∈ map collection es2.
Proof. rewrite map_app. apply elem_of_app. Qed.

Lemma pre_tag x :
  x ∈ map collection pre →
  (x ∉ namesOf items) ∧ ∀ n, x ≠ n +:+ updatedTag.
Proof.
  change (map collection pre) with (collection <$> pre).
  intros (e & -> & He)%list_elem_of_fmap. by apply foreign.
Qed.

Lemma failed_outcome c o :
  (c, o) ∈ items → name c ∈ map collection (pre ++ errorsOf items) →
  ∃ msg, o = Failed msg.
Proof.
  intros Hin [Hpre|Herr]%tags_app.
  - exfalso. apply pre_tag in Hpre as [Hpre _]. apply Hpre. by eapply item_named.
  - apply elem_of_errorsOf in Herr as (c' & msg & Hin' & Heq).
    exists msg. symmetry. by eapply one_outcome_per_name.
Qed.

Lemma items_partitioned b m :
  partitioned (namesOf items)
    (mkResult b (createdOf items) (skippedOf items) (pre ++ errorsOf items) m).
Proof.
  unfold partitioned, exactlyOne, inCreated, inSkipped, inErrors, disjointLists.
  simpl. split; [|split; [|split]].
  - intros n (c & o & Hin & <-)%named_item.
    pose proof (created_outcome c o Hin) as HC.
    pose proof (skipped_outcome c o Hin) as HS.
    pose proof (failed_outcome c o Hin) as HF.
    destruct o as [| | |msg].
    + left. split; [|split].
      * left. apply elem_of_createdOf. eauto.
      * intros H. by specialize (HS H).
      * intros H. by destruct (HF H).
    + left. split; [|split].
      * right. apply elem_of_createdOf. eauto.
      * intros H. by specialize (HS H).
      * intros H. by destruct (HF H).
    + right; left. split; [|split].
      * intros H. by destruct (HC H).
      * apply elem_of_skippedOf. eauto.
      * intros H. by destruct (HF H).
    + right; right. split; [|split].
      * intros H. by destruct (HC H).
      * intros H. by specialize (HS H).
      * apply tags_app. right. apply elem_of_errorsOf. eauto.
  - intros x Hc (c & Hin & ->)%elem_of_skippedOf.
    by destruct (created_outcome c Skipped Hin (or_introl Hc)).
  - intros x (c & [[Hin ->]|[Hin ->]])%elem_of_createdOf.
    + intros H. by destruct (failed_outcome c Created Hin H).
    + intros [Hpre|Herr]%tags_app.
      * apply pre_tag in Hpre as [_ Hpre]. by eapply Hpre.
      * apply elem_of_errorsOf in Herr as (c' & msg & Hin' & Heq).
        apply (plain (name c) (name c')); [by eapply item_named..|by symmetry].
  - intros x (c & Hin & ->)%elem_of_skippedOf H.
    by destruct (failed_outcome c Skipped Hin H).
Qed.

End Partition.

(** ** The result of a run that reaches the loop *)

Lemma finalResult_lists r :
  created (finalResult r) = created r
  ∧ skipped (finalResult r) = skipped r
  ∧ errors (finalResult r) = errors r.
Proof.
  unfold finalResult. destruct (0 <? _)%nat; [done|]. by destruct (_ && _)%bool.
Qed.

Lemma finalResult_success r :
  success (finalResult r) = (success r && bool_decide (errors r = []))%bool.
Proof.
  unfold finalResult. destruct (errors r) as [|e es]; simpl.
  - destruct (_ && _)%bool; simpl; by rewrite andb_true_r.
  - by rewrite andb_false_r.
Qed.

Lemma partitioned_lists names r r' :
  created r' = created r → skipped r' = skipped r → errors r' = errors r →
  partitioned names r → partitioned names r'.
Proof.
  unfold partitioned, inCreated, inSkipped, inErrors.
  by intros -> -> ->.
Qed.

Lemma unmarked_Forall names :
  Forall (λ n, n +:+ updatedTag ∉ names) names → unmarked names.
Proof.
  rewrite Forall_forall. intros Hall n m Hn Hm ->. by apply (Hall n).
Qed.

Section Reached.
Context {Net : Type} `{Api : PocketBaseApi Net}.
Implicit Types (st : Run Net) (ex : gset string).

Lemma settingsEntry_tag settings st e :
  settingsEntry settings st = Some e →
  collection e = "users" ∨ collection e = "_settings".
Proof.
  unfold settingsEntry. destruct settings as [s|]; [|done].
  destruct (truthy _).
  - destruct (oauthRejects _ _); [intros [= <-]; by left|done].
  - destruct (globalRejects _ _); [intros [= <-]; by right|done].
Qed.

Lemma loopItems_names options ex st :
  namesOf (loopItems options ex st) = map name (registry options).
Proof. unfold namesOf, loopItems. by rewrite outcomes_fst. Qed.

Lemma reached_lists options st ex :
  outcome (openSession options) st = inr (Some ex) →
  ∃ r st',
    provisionCollections options st = (inr r, st')
    ∧ created r = createdOf (loopItems options ex st)
    ∧ skipped r = skippedOf (loopItems options ex st)
    ∧ errors r = (settingsErrors options st ++ errorsOf (loopItems options ex st))%list
    ∧ success r = bool_decide (errors r = [])
    ∧ authStore (pb st') = None
    ∧ net st' = net (afterLoop options ex st).
Proof.
  intros Hout. rewrite (run_reaching_loop _ _ _ Hout).
  destruct (openSession_reached _ _ _ Hout) as (_ & Hres & _).
  eexists _, _. split; [reflexivity|].
  assert (errors (result (beforeLoop options st)) = settingsErrors options st
          ∧ created (result (beforeLoop options st)) = []
          ∧ skipped (result (beforeLoop options st)) = []
          ∧ success (result (beforeLoop options st)) = true)
    as (Herrs & Hcreated & Hskipped & Hsuccess).
  { unfold beforeLoop, settingsErrors. rewrite applySettings_result, Hres.
    by destruct (settingsEntry _ _). }
  destruct (finalResult_lists (result (afterLoop options ex st))) as (-> & -> & ->).
  rewrite finalResult_success.
  unfold afterLoop. rewrite loop_result.
  rewrite recordAll_created, recordAll_skipped, recordAll_errors, recordAll_success.
  rewrite Herrs, Hcreated, Hskipped, Hsuccess. done.
Qed.
End Reached.

(** ** The partition of the registry, in a run without a callback *)

Section PartitionClaim.
Context {Net : Type} `{Api : PocketBaseApi Net}.

(** The partition in a run without a callback: the registry has distinct
    names free of the update mark, and step 2.5 has recorded no error under
    one of them. *)
Lemma default_run_partitioned (options : ProvisionData) (st : Run Net)
    (ex : gset string) :
  outcome (openSession options) st = inr (Some ex) →
  NoDup (map name (registry options)) →
  unmarked (map name (registry options)) →
  (∀ e, e ∈ settingsErrors options st →
        collection e ∉ map name (registry options)) →
  ∃ r st',
    provisionCollections options st = (inr r, st')
    ∧ partitioned (map name (registry options)) r.
Proof.
  intros Hout Hdistinct Hplain Hforeign.
  destruct (reached_lists _ _ _ Hout) as (r & st' & Hrun & Hc & Hs & He & _).
  exists r, st'. split; [exact Hrun|].
  rewrite <- (loopItems_names options ex st) in *.
  apply (partitioned_lists _
           (mkResult true (createdOf (loopItems options ex st))
              (skippedOf (loopItems options ex st))
              (settingsErrors options st ++ errorsOf (loopItems options ex st))
              EmptyString)); [exact Hc|exact Hs|exact He|].
  apply (items_partitioned _ _ Hdistinct Hplain).
  intros e He'. split; [by apply Hforeign|].
  intros n. apply short_not_marked.
  unfold settingsErrors in He'.
  destruct (settingsEntry _ _) as [e0|] eqn:Hentry; simpl in He';
    [apply list_elem_of_singleton in He' as ->|by apply elem_of_nil in He'].
  destruct (settingsEntry_tag _ _ _ Hentry) as [-> | ->]; simpl; lia.
Qed.
End PartitionClaim.

(** C1 as stated fails: a registry holding "users", an OAuth2 update that is
    rejected; "users" is skipped by the loop and is also the tag of the
    error of step 2.5. *)
Lemma partition_broken_by_settings_entry :
  let options := Scripted.options [Scripted.schema "users"] false
                   (Some Scripted.googleAuth) in
  let st := Scripted.start
              (Scripted.mkServer [mkModel "u1" "users"]
                 [None; None; None; Some (ErrorInstance "boom")]) in
  (∃ ex, outcome (openSession options) st = inr (Some ex))
  ∧ ∃ r st',
      provisionCollections options st = (inr r, st')
      ∧ skipped r = ["users"]
      ∧ errors r = [mkError "users" "boom"]
      ∧ ¬ partitioned (map name (registry options)) r.
Proof.
  split.
  - eexists. vm_compute. reflexivity.
  - eexists _, _. split; [vm_compute; reflexivity|]. split; [reflexivity|].
    split; [reflexivity|].
    intros (_ & _ & _ & Hdisjoint). apply (Hdisjoint "users"); simpl; set_solver.
Qed.
(** The partition also needs the names of the registry to be distinct: the
    second creation of "a" is rejected by the server. *)
Example partition_broken_by_duplicate_name :
  ∃ r st',
    provisionCollections
      (Scripted.options [Scripted.schema "a"; Scripted.schema "a"] false None)
      (Scripted.start (Scripted.mkServer [] []))
    = (inr r, st')
    ∧ created r = ["a"]
    ∧ errors r = [mkError "a" "Failed to create record."]
    ∧ ¬ partitioned ["a"; "a"] r.
Proof.
  eexists _, _. split; [vm_compute; reflexivity|]. split; [reflexivity|].
  split; [reflexivity|].
  intros (_ & _ & Hdisjoint & _). apply (Hdisjoint "a"); simpl; set_solver.
Qed.

(** And it needs them to be free of the update mark: "a" is updated, and
    the creation of "a (updated)" is rejected. *)
Example partition_broken_by_marked_name :
  ∃ r st',
    provisionCollections
      (Scripted.options [Scripted.schema "a"; Scripted.schema "a (updated)"] true None)
      (Scripted.start
         (Scripted.mkServer [mkModel "c1" "a"]
            [None; None; None; None; Some (ErrorInstance "invalid name")]))
    = (inr r, st')
    ∧ created r = ["a (updated)"]
    ∧ errors r = [mkError "a (updated)" "invalid name"]
    ∧ ¬ partitioned ["a"; "a (updated)"] r.
Proof.
  eexists _, _. split; [vm_compute; reflexivity|]. split; [reflexivity|].
  split; [reflexivity|].
  intros (_ & _ & Hdisjoint & _). apply (Hdisjoint "a (updated)"); simpl; set_solver.
Qed.

(** ** C3: the fatal failures of steps 1 and 2 *)

Section Fatal.
Context {Net : Type} `{Api : PocketBaseApi Net}.

Lemma fatal_result options (st : Run Net) tag e n :
  fatal options st tag e n →
  ∃ r st',
    provisionCollections options st = (inr r, st')
    ∧ success r = false
    ∧ created r = []
    ∧ skipped r = []
    ∧ errors r = [mkError tag (errorMsg e)]
    ∧ net st' = n.
Proof.
  intros [[-> Hauth]|(-> & token & n0 & Hauth & Hlist)].
  - pose proof (openSession_auth_failed _ _ _ _ Hauth) as Hopen.
    rewrite (run_returning_early options st) by (unfold outcome; by rewrite Hopen).
    unfold exec. rewrite Hopen. simpl. by eexists _, _.
  - pose proof (openSession_fetch_failed _ _ _ _ _ _ Hauth Hlist) as Hopen.
    rewrite (run_returning_early options st) by (unfold outcome; by rewrite Hopen).
    unfold exec. rewrite Hopen. simpl. by eexists _, _.
Qed.

(** C3 (amended): when authentication or the listing of the existing
    collections is rejected, the run returns at once, with [success] false,
    [created] and [skipped] empty and exactly one error entry; its tag is
    the literal "_admin" (authentication) or "_system" (listing), which is
    not the name of any schema of [DEFAULT_COLLECTIONS]. *)
Theorem fatal_failure_short_circuits options (st : Run Net) tag e n :
  fatal options st tag e n →
  ∃ r st',
    provisionCollections options st = (inr r, st')
    ∧ success r = false
    ∧ created r = []
    ∧ skipped r = []
    ∧ errors r = [mkError tag (errorMsg e)]
    ∧ (tag = "_admin" ∨ tag = "_system")
    ∧ (tag ∉ map name DEFAULT_COLLECTIONS)
    ∧ net st' = n.
Proof.
  intros Hfatal.
  destruct (fatal_result _ _ _ _ _ Hfatal) as (r & st' & Hrun & Hs & Hc & Hk & He & Hn).
  exists r, st'. repeat (split; [assumption|]).
  destruct Hfatal as [[-> _]|[-> _]].
  - split; [by left|]. split; [|exact Hn].
    apply (bool_decide_unpack _). vm_compute. exact I.
  - split; [by right|]. split; [|exact Hn].
    apply (bool_decide_unpack _). vm_compute. exact I.
Qed.

End Fatal.

Lemma fatal_failure_short_circuits_witness :
  ∃ r st',
    provisionCollections (Scripted.options DEFAULT_COLLECTIONS false None)
      (Scripted.start (Scripted.mkServer [] [None; Some (Thrown "connection reset")]))
    = (inr r, st')
    ∧ success r = false
    ∧ created r = []
    ∧ skipped r = []
    ∧ errors r = [mkError "_system" "connection reset"]
    ∧ ("_system" = "_admin" ∨ "_system" = "_system")
    ∧ ("_system" ∉ map name DEFAULT_COLLECTIONS)
    ∧ net st' = Scripted.mkServer [] [].
Proof.
  apply (fatal_failure_short_circuits
           (Scripted.options DEFAULT_COLLECTIONS false None)
           (Scripted.start (Scripted.mkServer [] [None; Some (Thrown "connection reset")]))
           "_system" (Thrown "connection reset") (Scripted.mkServer [] [])).
  right. split; [reflexivity|].
  exists "admin-token", (Scripted.mkServer [] [Some (Thrown "connection reset")]).
  split; vm_compute; reflexivity.
Defined.

(** C3 as stated fails: nothing keeps a registry from naming a collection
    "_admin"; the tag of the authentication failure is then the name of a
    schema of the registry, and the errors of the run are those of a run in
    which the creation of that collection is rejected. *)
Lemma sentinel_is_a_registry_name :
  let options := Scripted.options [Scripted.schema "_admin"] false None in
  let rejected := Some (ErrorInstance "Failed to authenticate.") in
  let st := Scripted.start (Scripted.mkServer [] [rejected]) in
  let st2 := Scripted.start (Scripted.mkServer [] [None; None; rejected]) in
  fatal options st "_admin" (ErrorInstance "Failed to authenticate.")
    (Scripted.mkServer [] [])
  ∧ ∃ r st' r2 st2',
      provisionCollections options st = (inr r, st')
      ∧ errors r = [mkError "_admin" "Failed to authenticate."]
      ∧ ¬ (∀ e, e ∈ errors r → collection e ∉ map name (registry options))
      ∧ provisionCollections options st2 = (inr r2, st2')
      ∧ errors r2 = errors r
      ∧ created r2 = created r
      ∧ skipped r2 = skipped r
      ∧ success r2 = success r.
Proof.
  split.
  - left. split; reflexivity.
  - eexists _, _, _, _. split; [vm_compute; reflexivity|].
    split; [reflexivity|]. split.
    + intros Hdistinct. apply (Hdistinct (mkError "_admin" "Failed to authenticate."));
        simpl; set_solver.
    + split; [vm_compute; reflexivity|]. done.
Qed.
(** ** C5, C6: every run without a callback returns a result *)

Section Total.
Context {Net : Type} `{Api : PocketBaseApi Net}.
Implicit Types (st : Run Net).

Lemma opening_fatal options st :
  (∃ tag e n, fatal options st tag e n)
  ∨ (∃ ex, outcome (openSession options) st = inr (Some ex)).
Proof.
  destruct (opening options st).
  - left. exists "_admin", e, n. by left.
  - left. exists "_system", e, n'. right. eauto.
  - right. destruct (openSession_connected _ _ _ _ _ _ Hauth Hlist) as [log Hrun].
    eexists. unfold outcome. by rewrite Hrun.
Qed.

Lemma fatal_not_reached options st tag e n ex :
  fatal options st tag e n → outcome (openSession options) st = inr (Some ex) → False.
Proof.
  unfold outcome. intros [[-> Hauth]|(-> & token & n0 & Hauth & Hlist)].
  - by rewrite (openSession_auth_failed _ _ _ _ Hauth).
  - by rewrite (openSession_fetch_failed _ _ _ _ _ _ Hauth Hlist).
Qed.

(** A run without a callback returns, whatever the server answers, and every
    rejected request is in its result: a rejected authentication or listing
    as the single entry "_admin" or "_system" with [success] false, a
    rejected settings update and every rejected creation or update as an
    entry of [errors]. *)
Lemma default_run_returns options st :
  ∃ r st',
    provisionCollections options st = (inr r, st')
    ∧ (∀ tag e n, fatal options st tag e n →
         errors r = [mkError tag (errorMsg e)] ∧ success r = false)
    ∧ (∀ ex, outcome (openSession options) st = inr (Some ex) →
         (∀ e, e ∈ settingsErrors options st → e ∈ errors r)
         ∧ (∀ c msg, (c, Failed msg) ∈ loopItems options ex st →
              mkError (name c) msg ∈ errors r)
         ∧ (errors r ≠ [] → success r = false)).
Proof.
  destruct (opening_fatal options st) as [(tag & e & n & Hfatal)|[ex Hout]].
  - destruct (fatal_result _ _ _ _ _ Hfatal)
      as (r & st' & Hrun & Hsuccess & _ & _ & Herrors & _).
    exists r, st'. split; [exact Hrun|]. split.
    + intros tag' e' n' Hfatal'.
      destruct (fatal_result _ _ _ _ _ Hfatal')
        as (r' & st'' & Hrun' & _ & _ & _ & Herrors' & _).
      rewrite Hrun in Hrun'. injection Hrun' as <- <-. by rewrite Herrors'.
    + intros ex Hout. destruct (fatal_not_reached _ _ _ _ _ _ Hfatal Hout).
  - destruct (reached_lists _ _ _ Hout)
      as (r & st' & Hrun & _ & _ & Herrors & Hsuccess & _).
    exists r, st'. split; [exact Hrun|]. split.
    + intros tag e n Hfatal. destruct (fatal_not_reached _ _ _ _ _ _ Hfatal Hout).
    + intros ex' Hout'. rewrite Hout in Hout'. injection Hout' as <-.
      rewrite Herrors. split; [|split].
      * intros e He. apply elem_of_app. by left.
      * intros c msg Hin. apply elem_of_app. right.
        apply list_elem_of_omap. by exists (c, Failed msg).
      * rewrite Hsuccess, Herrors. intros Hne. by apply bool_decide_eq_false.
Qed.

Lemma success_reflects_errors options st :
  ∃ r st',
    provisionCollections options st = (inr r, st')
    ∧ (success r = true ↔ errors r = []).
Proof.
  destruct (opening_fatal options st) as [(tag & e & n & Hfatal)|[ex Hout]].
  - destruct (fatal_result _ _ _ _ _ Hfatal)
      as (r & st' & Hrun & Hsuccess & _ & _ & Herrors & _).
    exists r, st'. split; [exact Hrun|]. rewrite Hsuccess, Herrors. done.
  - destruct (reached_lists _ _ _ Hout)
      as (r & st' & Hrun & _ & _ & _ & Hsuccess & _).
    exists r, st'. split; [exact Hrun|]. rewrite Hsuccess.
    apply bool_decide_eq_true.
Qed.

(** The session at the end of a run: closed when the run went through the
    loop, never opened when authentication was rejected, and left open when
    the listing was rejected. *)
Lemma session_after_loop options st ex :
  outcome (openSession options) st = inr (Some ex) →
  authStore (pb (exec (provisionCollections options) st)) = None.
Proof.
  intros Hout. destruct (reached_lists _ _ _ Hout) as (r & st' & Hrun & H).
  unfold exec. rewrite Hrun. simpl. tauto.
Qed.

Lemma session_after_auth_failure options st e n :
  admins_authWithPassword (freshClient options) (adminEmail options)
    (adminPassword options) (net st) = (inl e, n) →
  authStore (pb (exec (provisionCollections options) st)) = None.
Proof.
  intros Hauth. pose proof (openSession_auth_failed _ _ _ _ Hauth) as Hopen.
  unfold exec.
  rewrite (run_returning_early options st) by (unfold outcome; by rewrite Hopen).
  unfold exec. by rewrite Hopen.
Qed.

Lemma session_after_fetch_failure options st token n e n' :
  admins_authWithPassword (freshClient options) (adminEmail options)
    (adminPassword options) (net st) = (inr token, n) →
  collections_getFullList (adminClient options token) n = (inl e, n') →
  authStore (pb (exec (provisionCollections options) st)) = Some token.
Proof.
  intros Hauth Hlist.
  pose proof (openSession_fetch_failed _ _ _ _ _ _ Hauth Hlist) as Hopen.
  unfold exec.
  rewrite (run_returning_early options st) by (unfold outcome; by rewrite Hopen).
  unfold exec. by rewrite Hopen.
Qed.

(** [validateAdminCredentials] clears the session it has opened. *)
Lemma validateAdminCredentials_clears saved pbUrl email password st token n :
  admins_authWithPassword (mkClient pbUrl saved) email password (net st)
  = (inr token, n) →
  authStore (pb (exec (validateAdminCredentials saved pbUrl email password) st))
  = None.
Proof.
  intros Hauth.
  unfold exec, validateAdminCredentials, pb_admins_authWithPassword,
    pb_authStore_clear, try_catch, bind, call, modify, ret, set_pb, set_net.
  simpl. by rewrite Hauth.
Qed.

End Total.

(** C5: the returned [success] is true exactly when [errors] is empty, on
    every path; and a run can succeed with nothing created, as when the
    default collections all exist already. *)
Theorem success_iff_no_errors :
  (∀ Net (Api : PocketBaseApi Net) options (st : Run Net),
     ∃ r st',
       provisionCollections options st = (inr r, st')
       ∧ (success r = true ↔ errors r = []))
  ∧ (∃ r st',
       provisionCollections (Scripted.options DEFAULT_COLLECTIONS false None)
         (Scripted.start
            (Scripted.mkServer [mkModel "c1" "test_items"; mkModel "c2" "tweets"] []))
       = (inr r, st')
       ∧ success r = true ∧ created r = [] ∧ skipped r = ["test_items"; "tweets"]).
Proof.
  split.
  - intros Net Api options st. apply success_reflects_errors.
  - eexists _, _. split; [vm_compute; reflexivity|]. done.
Qed.

(** C6 fails on the listing-failure path: with valid credentials and a
    rejected listing, the run returns while [pb.authStore] still holds the
    admin token. *)
Theorem session_leaks_when_listing_fails :
  let options := Scripted.options DEFAULT_COLLECTIONS false None in
  let st := Scripted.start
              (Scripted.mkServer [] [None; Some (ErrorInstance "Something went wrong.")]) in
  ∃ r st',
    provisionCollections options st = (inr r, st')
    ∧ errors r = [mkError "_system" "Something went wrong."]
    ∧ authStore (pb st') = Some "admin-token".
Proof. eexists _, _. split; [vm_compute; reflexivity|]. done. Qed.
(** ** A failed pass and the passes after it, in a run without a callback *)

Section Isolation.
Context {Net : Type} `{Api : PocketBaseApi Net}.
Implicit Types (st : Run Net) (ex : gset string) (upd : bool).

Lemma outcomes_app upd ex xs ys st :
  outcomes upd ex (xs ++ ys) st
  = (outcomes upd ex xs st
     ++ outcomes upd ex ys (exec (forOf xs (provisionOne upd ex)) st))%list.
Proof.
  revert st. induction xs as [|x xs IH]; intros st; [reflexivity|].
  rewrite loop_step. simpl. by rewrite IH.
Qed.

Lemma loop_app upd ex xs ys st :
  exec (forOf (xs ++ ys) (provisionOne upd ex)) st
  = exec (forOf ys (provisionOne upd ex)) (exec (forOf xs (provisionOne upd ex)) st).
Proof.
  unfold exec at 1. by rewrite forOf_app by apply provisionOne_returns.
Qed.

Lemma attempt_rejected upd ex schema st e :
  rejects upd ex schema st = Some e →
  attempt upd ex schema st = Failed (errorMsg e).
Proof. unfold attempt. by intros ->. Qed.

Lemma recorded_item (items : list (CollectionSchema * Outcome)) c o r :
  (c, o) ∈ items →
  (∃ l, created r = (l ++ createdOf items)%list) →
  (∃ l, skipped r = (l ++ skippedOf items)%list) →
  (∃ l, errors r = (l ++ errorsOf items)%list) →
  inCreated (name c) r ∨ inSkipped (name c) r ∨ inErrors (name c) r.
Proof.
  intros Hin [lc Hc] [ls Hs] [le He].
  unfold inCreated, inSkipped, inErrors. rewrite Hc, Hs, He.
  destruct o as [| | |msg].
  - left. left. apply elem_of_app. right. apply elem_of_createdOf. eauto.
  - left. right. apply elem_of_app. right. apply elem_of_createdOf. eauto.
  - right. left. apply elem_of_app. right. apply elem_of_skippedOf. eauto.
  - right. right. apply tags_app. right. apply elem_of_errorsOf. eauto.
Qed.

(** In a run without a callback, a pass whose request is rejected is
    followed by a pass over every later schema of the registry, each from
    the state the pass before it has left and each with an outcome of its
    own, all recorded after the entry of the failed pass. *)
Lemma default_run_isolates_failure options st ex before failing after e :
  outcome (openSession options) st = inr (Some ex) →
  registry options = (before ++ failing :: after)%list →
  rejects (updating options) ex failing
    (exec (forOf before (provisionOne (updating options) ex))
       (beforeLoop options st)) = Some e →
  let pass := provisionOne (updating options) ex in
  let reached := exec (forOf before pass) (beforeLoop options st) in
  let passed := outcomes (updating options) ex before (beforeLoop options st) in
  let rest := outcomes (updating options) ex after (exec (pass failing) reached) in
  ∃ r st',
    provisionCollections options st = (inr r, st')
    ∧ created r = (createdOf passed ++ createdOf rest)%list
    ∧ skipped r = (skippedOf passed ++ skippedOf rest)%list
    ∧ errors r = (settingsErrors options st ++ errorsOf passed
                  ++ mkError (name failing) (errorMsg e) :: errorsOf rest)%list
    ∧ rest.*1 = after
    ∧ (∀ c, c ∈ after →
         inCreated (name c) r ∨ inSkipped (name c) r ∨ inErrors (name c) r)
    ∧ net st' = net (exec (forOf after pass) (exec (pass failing) reached)).
Proof.
  intros Hout Hreg Hrej pass reached passed rest.
  destruct (reached_lists _ _ _ Hout)
    as (r & st' & Hrun & Hc & Hs & He & _ & _ & Hnet).
  assert (loopItems options ex st
          = (passed ++ (failing, Failed (errorMsg e)) :: rest)%list) as Hitems.
  { unfold loopItems. rewrite Hreg, outcomes_app. simpl.
    by rewrite (attempt_rejected _ _ _ _ _ Hrej). }
  assert (rest.*1 = after) as Hrest by apply outcomes_fst.
  rewrite Hitems in Hc, Hs, He.
  unfold createdOf, skippedOf, errorsOf in Hc, Hs, He.
  rewrite omap_app in Hc. rewrite omap_app in Hs. rewrite omap_app in He.
  simpl in Hc, Hs, He.
  fold (createdOf passed) (createdOf rest) in Hc.
  fold (skippedOf passed) (skippedOf rest) in Hs.
  fold (errorsOf passed) (errorsOf rest) in He.
  exists r, st'. split; [exact Hrun|]. split; [exact Hc|]. split; [exact Hs|].
  split; [exact He|]. split; [exact Hrest|]. split.
  - intros c Hin. rewrite <- Hrest in Hin.
    apply list_elem_of_fmap in Hin as ([c' o] & -> & Hin). simpl.
    apply (recorded_item rest c' o r Hin).
    + eexists. exact Hc.
    + eexists. exact Hs.
    + exists (settingsErrors options st ++ errorsOf passed
              ++ [mkError (name failing) (errorMsg e)])%list.
      rewrite He. by rewrite <- !app_assoc.
  - rewrite Hnet. unfold afterLoop. rewrite Hreg.
    by rewrite loop_app, loop_step.
Qed.

End Isolation.

(** ** C10: the tag of a settings failure *)

Section SettingsTag.
Context {Net : Type} `{Api : PocketBaseApi Net}.
Implicit Types (st : Run Net) (ex : gset string).

(** C10: in a run that reaches step 2.5 with settings, a rejected OAuth2
    update (settings with a truthy [googleAuth]) is recorded first in
    [errors] under the collection name "users", and a rejected global
    update (the fallback path) under "_settings".  The "users" entry is
    the very entry that a failed pass over a schema named "users" records:
    the errors of the run are those the loop alone would have recorded, had
    it started with such a pass. *)
Theorem settings_failure_tagged_users options st ex s e :
  outcome (openSession options) st = inr (Some ex) →
  settings options = Some s →
  let googleAuth := default JsUndefined (s !! "googleAuth") in
  let opened := exec (openSession options) st in
  ∃ r st',
    provisionCollections options st = (inr r, st')
    ∧ (truthy googleAuth = true → oauthRejects googleAuth opened = Some e →
         errors r = mkError "users" (errorMsg e) :: errorsOf (loopItems options ex st)
         ∧ ∀ c, name c = "users" →
             errors r = errorsOf ((c, Failed (errorMsg e)) :: loopItems options ex st))
    ∧ (truthy googleAuth = false → globalRejects s opened = Some e →
         errors r = mkError "_settings" (errorMsg e) :: errorsOf (loopItems options ex st)).
Proof.
  intros Hout Hs googleAuth opened.
  destruct (reached_lists _ _ _ Hout) as (r & st' & Hrun & _ & _ & He & _).
  exists r, st'. split; [exact Hrun|].
  unfold settingsErrors, settingsEntry in He. rewrite Hs in He.
  fold googleAuth opened in He.
  split; intros Htruthy Hrej; rewrite Htruthy, Hrej in He; simpl in He.
  - split; [exact He|]. intros c Hc. rewrite He. unfold errorsOf. simpl.
    by rewrite Hc.
  - exact He.
Qed.

End SettingsTag.

Lemma settings_failure_tagged_users_witness :
  ∃ r st',
    provisionCollections
      (Scripted.options [Scripted.schema "users"] false (Some Scripted.googleAuth))
      (Scripted.start
         (Scripted.mkServer [mkModel "u1" "users"]
            [None; None; None; Some (ErrorInstance "boom")]))
    = (inr r, st')
    ∧ skipped r = ["users"]
    ∧ errors r = [mkError "users" "boom"].
Proof.
  destruct (settings_failure_tagged_users
              (Scripted.options [Scripted.schema "users"] false (Some Scripted.googleAuth))
              (Scripted.start
                 (Scripted.mkServer [mkModel "u1" "users"]
                    [None; None; None; Some (ErrorInstance "boom")]))
              {[ "users" ]} Scripted.googleAuth (ErrorInstance "boom"))
    as (r & st' & Hrun & Husers & _).
  - vm_compute. reflexivity.
  - reflexivity.
  - exists r, st'. split; [exact Hrun|]. split.
    + vm_compute in Hrun. by injection Hrun as <- _.
    + destruct Husers as [-> _]; vm_compute; reflexivity.
Defined.

(** The same [errors], [created]-free result from a run without any
    settings failure, in which the creation of "users" is rejected. *)
Example users_item_failure_looks_the_same :
  ∃ r st' r2 st2',
    provisionCollections
      (Scripted.options [Scripted.schema "users"] false (Some Scripted.googleAuth))
      (Scripted.start
         (Scripted.mkServer [mkModel "u1" "users"]
            [None; None; None; Some (ErrorInstance "boom")]))
    = (inr r, st')
    ∧ provisionCollections (Scripted.options [Scripted.schema "users"] false None)
        (Scripted.start (Scripted.mkServer [] [None; None; Some (ErrorInstance "boom")]))
      = (inr r2, st2')
    ∧ errors r = [mkError "users" "boom"]
    ∧ errors r2 = errors r.
Proof.
  eexists _, _, _, _. split; [vm_compute; reflexivity|].
  split; [vm_compute; reflexivity|]. done.
Qed.

(** ** C7: the payload builder *)

Lemma buildField_correct field : wireFieldCorrect field (buildField field).
Proof.
  destruct field as [n t r o].
  unfold wireFieldCorrect, buildField, setDefaulted, baseFieldOf, omitted, coalesce.
  destruct t; simpl.
  all: try (unfold carriesDefaults; simpl;
            split; [by simplify_map_eq|];
            split; [by simplify_map_eq|];
            split; [by simplify_map_eq|];
            split;
            [repeat (apply Forall_cons; split; [by simplify_map_eq|]); by apply Forall_nil
            |rewrite !dom_insert_L, dom_empty_L; set_solver]).
  all: unfold mergesOptions; simpl; intros k; destruct o as [opts|]; simpl.
  all: try (rewrite lookup_union; destruct (opts !! k); simpl).
  all: try (by destruct (_ !! k)).
  all: try rewrite (left_id None).
  all: destruct (decide (k = "name")) as [->|]; [by simplify_map_eq|];
       destruct (decide (k = "type")) as [->|]; [by simplify_map_eq|];
       destruct (decide (k = "required")) as [->|]; by simplify_map_eq.
Qed.

(** C7: the payload carries the name and the type of the schema, one wire
    field per field of the schema and in the same order, the indexes
    (none when the schema gives none) and the five rules as they are; and
    every wire field carries the sub-attributes of its kind, each with the
    listed default when the options omit it (text: min 0, max 0, empty
    pattern; number: null min and max, noDecimal false; bool: nothing;
    select: no values, maxSelect 1; relation: empty collectionId,
    cascadeDelete false, maxSelect 1; file: maxSelect 1, maxSize 5242880, no
    mimeTypes; editor: convertUrls false), and for the other kinds the
    caller's options merged over the base attributes. *)
Theorem buildCollectionPayload_correct schema :
  let payload := buildCollectionPayload schema in
  p_name payload = name schema
  ∧ p_type payload = ctype schema
  ∧ length (p_fields payload) = length (fields schema)
  ∧ (∀ i, p_fields payload !! i = buildField <$> (fields schema !! i))
  ∧ Forall2 wireFieldCorrect (fields schema) (p_fields payload)
  ∧ p_indexes payload = default [] (indexes schema)
  ∧ (p_listRule payload, p_viewRule payload, p_createRule payload,
     p_updateRule payload, p_deleteRule payload)
    = (listRule schema, viewRule schema, createRule schema,
       updateRule schema, deleteRule schema).
Proof.
  simpl. split; [done|]. split; [done|]. split; [by rewrite length_map|].
  split; [intros i; apply list_lookup_fmap|]. split; [|done].
  apply Forall2_fmap_r, Forall_Forall2_diag, Forall_forall.
  intros field _. apply buildField_correct.
Qed.

Example text_field_defaults :
  buildField (mkField "title" Ftext (Some true) None)
  = {[ "name" := JsString "title"; "type" := JsString "text";
       "required" := JsBool true; "min" := JsNumber 0; "max" := JsNumber 0;
       "pattern" := JsString EmptyString ]}.
Proof. by vm_compute. Qed.

Example file_field_keeps_supplied_size :
  buildField (mkField "avatar" Ffile None (Some {[ "maxSize" := JsNumber 1024 ]}))
  = {[ "name" := JsString "avatar"; "type" := JsString "file";
       "required" := JsBool false; "maxSelect" := JsNumber 1;
       "maxSize" := JsNumber 1024; "mimeTypes" := JsArray [] ]}.
Proof. by vm_compute. Qed.

(** ** C8: the health probe *)

(** The message of a [ClientResponseError] is never empty, the two special
    texts not being so. *)
Lemma clientResponseMessage_nonempty abortedText refusedText failure :
  abortedText ≠ EmptyString →
  refusedText ≠ EmptyString →
  clientResponseMessage abortedText refusedText failure ≠ EmptyString.
Proof.
  intros Haborted Hrefused. unfold clientResponseMessage.
  destruct (String.eqb_spec (responseMessage failure) EmptyString) as [_|Hgiven];
    [|exact Hgiven].
  destruct (isAbort failure); [exact Haborted|].
  destruct (refusedOnLoopback failure); [exact Hrefused|]. discriminate.
Qed.

(** C8: [checkPocketBaseHealth] never throws.  When the health request
    resolves it reports [healthy] with the message of the server.  When the
    request fails, which the SDK tells by rejecting with a
    [ClientResponseError], it reports not [healthy] with the message of
    that error, and this message is not empty. *)
Theorem checkPocketBaseHealth_reports {Net} `{Api : PocketBaseApi Net}
    (abortedText refusedText : string) (saved : option string)
    (pbUrl : string) (n : Net) :
  abortedText ≠ EmptyString →
  refusedText ≠ EmptyString →
  (∀ e n', health_check (mkClient pbUrl saved) n = (inl e, n') →
     ∃ failure, e = clientResponseError abortedText refusedText failure) →
  ∃ r,
    checkPocketBaseHealth saved pbUrl n
    = (inr r, (health_check (mkClient pbUrl saved) n).2)
    ∧ match (health_check (mkClient pbUrl saved) n).1 with
      | inr health => r = mkReport true (health_message health)
      | inl e =>
          r = mkReport false (errorMsg e)
          ∧ report r ≠ EmptyString
      end.
Proof.
  intros Haborted Hrefused Hsdk.
  unfold checkPocketBaseHealth, try_catch, bind, ret.
  destruct (health_check _ n) as [[e|health] n'] eqn:Hcheck; simpl;
    [|by eexists].
  eexists. split; [reflexivity|]. split; [reflexivity|]. simpl.
  destruct (Hsdk e n' eq_refl) as [failure ->]. simpl.
  by apply clientResponseMessage_nonempty.
Qed.

Lemma checkPocketBaseHealth_reports_witness :
  ∃ r,
    checkPocketBaseHealth None "http://127.0.0.1:8090"
      (Scripted.mkServer []
         [Some (clientResponseError "The request was aborted." "Failed to connect."
                  (mkFailure EmptyString false false))])
    = (inr r, Scripted.mkServer [] [])
    ∧ r = mkReport false "Something went wrong.".
Proof.
  destruct (checkPocketBaseHealth_reports
              "The request was aborted." "Failed to connect." None
              "http://127.0.0.1:8090"
              (Scripted.mkServer []
                 [Some (clientResponseError "The request was aborted."
                          "Failed to connect."
                          (mkFailure EmptyString false false))]))
    as (r & Hrun & Hreport & _).
  - discriminate.
  - discriminate.
  - intros e n' Hcheck. vm_compute in Hcheck. injection Hcheck as <- <-.
    by exists (mkFailure EmptyString false false).
  - exists r. split; [exact Hrun|exact Hreport].
Defined.

(** A response with an error status and a message of its own is reported
    with that message. *)
Example health_probe_behind_a_failing_proxy :
  checkPocketBaseHealth None "http://127.0.0.1:8090"
    (Scripted.mkServer []
       [Some (clientResponseError "The request was aborted." "Failed to connect."
                (mkFailure "Bad gateway" false false))])
  = (inr (mkReport false "Bad gateway"), Scripted.mkServer [] []).
Proof. reflexivity. Qed.

Example health_probe_of_a_running_server :
  checkPocketBaseHealth None "http://127.0.0.1:8090" (Scripted.mkServer [] [])
  = (inr (mkReport true "API is healthy."), Scripted.mkServer [] []).
Proof. reflexivity. Qed.
(** ** C2: running twice *)

Section Idempotence.
Context {Net : Type} `{Api : PocketBaseApi Net}.
Context (stored : Net → gset string) `{!KeepsCollections stored}.
Implicit Types (st : Run Net) (ex : gset string).

Lemma openSession_inv options st ex :
  outcome (openSession options) st = inr (Some ex) →
  ∃ token n all n',
    admins_authWithPassword (freshClient options) (adminEmail options)
      (adminPassword options) (net st) = (inr token, n)
    ∧ collections_getFullList (adminClient options token) n = (inr all, n')
    ∧ ex = list_to_set (map cm_name all)
    ∧ net (exec (openSession options) st) = n'.
Proof.
  intros Hout. destruct (opening options st).
  - unfold outcome in Hout. by rewrite (openSession_auth_failed _ _ _ _ Hauth) in Hout.
  - unfold outcome in Hout.
    by rewrite (openSession_fetch_failed _ _ _ _ _ _ Hauth Hlist) in Hout.
  - destruct (openSession_connected _ _ _ _ _ _ Hauth Hlist) as [log Hrun].
    unfold outcome, exec in *. rewrite Hrun in *. simpl in *.
    exists token, n, all, n'. repeat split; [done..|congruence].
Qed.

(** The listing of a session is what the server held when it began, and
    is still held when the session is open. *)
Lemma openSession_stored options st ex :
  outcome (openSession options) st = inr (Some ex) →
  stored (net st) ⊆ ex ∧ ex ⊆ stored (net (exec (openSession options) st)).
Proof.
  intros (token & n & all & n' & Hauth & Hlist & -> & ->)%openSession_inv.
  rewrite (listing_shows_stored _ _ _ _ Hlist).
  pose proof (auth_keeps (freshClient options) (adminEmail options)
                (adminPassword options) (net st)) as Hkeep1.
  pose proof (listing_keeps (adminClient options token) n) as Hkeep2.
  rewrite Hauth in Hkeep1. rewrite Hlist in Hkeep2. simpl in *. done.
Qed.

Lemma applySettings_stored settings st :
  stored (net st) ⊆ stored (net (exec (applySettings settings) st)).
Proof.
  unfold exec, applySettings, try_catch, bind, call, push_error, update_result,
    onProgressDefault, modify, ret, set_result, set_net.
  destruct settings as [s|]; [|done]. destruct (truthy _); simpl.
  - pose proof (getOne_keeps (pb st) "users" (net st)) as Hkeep1.
    destruct (collections_getOne _ _ _) as [[?|users] n]; simpl in *; [done|].
    pose proof (update_keeps (pb st) (cm_id users)
                  (oauth2Patch (default JsUndefined (s !! "googleAuth"))) n) as Hkeep2.
    destruct (collections_update _ _ _ _) as [[?|[]] n']; simpl in *; set_solver.
  - pose proof (settings_keeps (pb st) s (net st)) as Hkeep.
    destruct (settings_update _ _ _) as [[?|[]] n]; simpl in *; done.
Qed.

(** A pass that does not update: it keeps what is stored, and unless it
    fails, its collection is stored when it ends. *)
Lemma provisionOne_stored ex schema st :
  ex ⊆ stored (net st) →
  stored (net st) ⊆ stored (net (exec (provisionOne false ex schema) st))
  ∧ ((∀ msg, attempt false ex schema st ≠ Failed msg) →
     name schema ∈ stored (net (exec (provisionOne false ex schema) st))).
Proof.
  intros Hex.
  unfold exec, provisionOne, attempt, rejects, try_catch, bind, call,
    push_created, push_skipped, push_error, update_result, onProgressDefault,
    modify, ret, set_result, set_net; simpl.
  destruct (decide (name schema ∈ ex)) as [Hin|Hout]; simpl.
  - split; [done|]. intros _. by apply Hex.
  - pose proof (create_keeps (pb st) (buildCollectionPayload schema) (net st)) as Hkeep.
    pose proof (create_stores (pb st) (buildCollectionPayload schema) (net st)) as Hstore.
    destruct (collections_create _ _ _) as [[e|[]] n]; simpl in *.
    + split; [done|]. intros Hok. by destruct (Hok (errorMsg e)).
    + split; [done|]. intros _. by apply Hstore.
Qed.

Lemma loop_stored ex schemas st :
  ex ⊆ stored (net st) →
  stored (net st) ⊆ stored (net (exec (forOf schemas (provisionOne false ex)) st))
  ∧ (errorsOf (outcomes false ex schemas st) = [] →
     ∀ c, c ∈ schemas →
          name c ∈ stored (net (exec (forOf schemas (provisionOne false ex)) st))).
Proof.
  revert st. induction schemas as [|c cs IH]; intros st Hex.
  - split; [done|]. intros _ c Hc. by apply elem_of_nil in Hc.
  - rewrite loop_step.
    destruct (provisionOne_stored ex c st Hex) as [Hkeep Hstored].
    destruct (IH (exec (provisionOne false ex c) st)) as [Hkeep' Hrest];
      [by etrans|].
    split; [by etrans|].
    unfold errorsOf. cbn [outcomes omap list_omap fst snd].
    intros Hnone c' [->|Hin]%elem_of_cons.
    + apply Hkeep', Hstored. intros msg Hfailed. by rewrite Hfailed in Hnone.
    + apply Hrest; [|done]. by destruct (attempt false ex c st).
Qed.

(** With every name listed and no updating, each pass is a skip. *)
Lemma outcomes_all_skipped ex schemas st :
  (∀ c, c ∈ schemas → name c ∈ ex) →
  outcomes false ex schemas st = map (λ c, (c, Skipped)) schemas.
Proof.
  revert st. induction schemas as [|c cs IH]; intros st Hall; [done|].
  simpl. rewrite IH by (intros c' Hc'; apply Hall; by right).
  unfold attempt, rejects.
  destruct (decide (name c ∈ ex)) as [|Hout]; [done|].
  destruct Hout. apply Hall. by left.
Qed.

Lemma skipped_entries schemas :
  createdOf (map (λ c, (c, Skipped)) schemas) = []
  ∧ skippedOf (map (λ c, (c, Skipped)) schemas) = map name schemas
  ∧ errorsOf (map (λ c, (c, Skipped)) schemas) = [].
Proof.
  induction schemas as [|c cs IH]; [done|].
  unfold createdOf, skippedOf, errorsOf in *. simpl in *.
  destruct IH as (IHc & IHs & IHe).
  split; [exact IHc|]. split; [|exact IHe]. f_equal. exact IHs.
Qed.

(** The two runs, the second started where the first one ended. *)
Lemma rerun_skips_everything options st ex1 ex2 :
  updating options = false →
  outcome (openSession options) st = inr (Some ex1) →
  errorsOf (loopItems options ex1 st) = [] →
  outcome (openSession options) (exec (provisionCollections options) st)
  = inr (Some ex2) →
  loopItems options ex2 (exec (provisionCollections options) st)
  = map (λ c, (c, Skipped)) (registry options).
Proof.
  intros Hupd Hout1 Hnone Hout2.
  destruct (reached_lists _ _ _ Hout1) as (r1 & st1 & Hrun1 & _ & _ & _ & _ & _ & Hnet1).
  assert (exec (provisionCollections options) st = st1) as Hexec
    by (unfold exec; by rewrite Hrun1).
  rewrite Hexec in *.
  (* every collection of the registry is stored when the first run ends *)
  assert (∀ c, c ∈ registry options → name c ∈ stored (net st1)) as Hstored.
  { rewrite Hnet1. unfold afterLoop. unfold loopItems in Hnone.
    rewrite Hupd in *.
    apply loop_stored; [|exact Hnone].
    etrans; [apply (openSession_stored _ _ _ Hout1)|apply applySettings_stored]. }
  (* and is listed by the second run *)
  unfold loopItems. rewrite Hupd. apply outcomes_all_skipped.
  intros c Hc. apply (openSession_stored _ _ _ Hout2). by apply Hstored.
Qed.


(** In particular after a first run that has returned [success]. *)
Corollary second_run_after_success options st r1 st1 ex2 :
  updating options = false →
  provisionCollections options st = (inr r1, st1) →
  success r1 = true →
  outcome (openSession options) st1 = inr (Some ex2) →
  settingsErrors options st1 = [] →
  ∃ r2 st2,
    provisionCollections options st1 = (inr r2, st2)
    ∧ created r2 = []
    ∧ skipped r2 = map name (registry options)
    ∧ errors r2 = []
    ∧ success r2 = true.
Proof.
  intros Hupd Hrun1 Hsuccess1 Hout2 Hsettings2.
  destruct (opening_fatal options st) as [(tag & e & n & Hfatal)|[ex1 Hout1]].
  { destruct (fatal_result _ _ _ _ _ Hfatal) as (r & st' & Hrun & Hfalse & _).
    rewrite Hrun1 in Hrun. injection Hrun as <- <-. congruence. }
  destruct (reached_lists _ _ _ Hout1)
    as (r & st' & Hrun & _ & _ & Herrors1 & Hs1 & _).
  rewrite Hrun1 in Hrun. injection Hrun as <- <-.
  rewrite Hsuccess1 in Hs1. symmetry in Hs1. apply bool_decide_eq_true in Hs1.
  rewrite Hs1 in Herrors1. symmetry in Herrors1.
  apply app_eq_nil in Herrors1 as [_ Hnone].
  assert (st1 = exec (provisionCollections options) st) as ->
    by (unfold exec; by rewrite Hrun1).
  pose proof (rerun_skips_everything _ _ _ _ Hupd Hout1 Hnone Hout2) as Hitems.
  destruct (reached_lists _ _ _ Hout2)
    as (r2 & st2 & Hrun2 & Hc2 & Hk2 & He2 & Hs2 & _).
  rewrite Hitems in *. destruct (skipped_entries (registry options)) as (Ec & Ek & Ee).
  rewrite Ec in Hc2. rewrite Ek in Hk2. rewrite Ee, Hsettings2 in He2. simpl in He2.
  exists r2, st2. repeat split; try done. by rewrite Hs2, He2.
Qed.

End Idempotence.
(** The scripted server keeps its collections. *)

Lemma scripted_next_held s : Scripted.held (Scripted.next s).2 = Scripted.held s.
Proof. unfold Scripted.next. by destruct (Scripted.script s). Qed.

Lemma scripted_served_keeps {A} (serve : Scripted.Server → (JsError + A) * Scripted.Server) s :
  (∀ s', Scripted.stored s' ⊆ Scripted.stored (serve s').2) →
  Scripted.stored s ⊆ Scripted.stored (Scripted.served serve s).2.
Proof.
  intros Hserve. unfold Scripted.served.
  pose proof (scripted_next_held s) as Hheld.
  destruct (Scripted.next s) as [[e|] s']; simpl in *.
  - unfold Scripted.stored. by rewrite Hheld.
  - etrans; [|apply Hserve]. unfold Scripted.stored. by rewrite Hheld.
Qed.

#[global] Instance scripted_keeps_collections : KeepsCollections Scripted.stored.
Proof.
  split; simpl.
  - intros _ s all s'. unfold Scripted.served.
    pose proof (scripted_next_held s) as Hheld.
    destruct (Scripted.next s) as [[e|] s0]; simpl in *; [done|].
    intros [= <- <-]. unfold Scripted.stored. by rewrite Hheld.
  - intros _ s. by apply scripted_served_keeps.
  - intros _ _ _ s. by apply scripted_served_keeps.
  - intros _ x s. apply scripted_served_keeps. intros s'. by destruct (find _ _).
  - intros _ _ _ s. by apply scripted_served_keeps.
  - intros _ _ s. by apply scripted_served_keeps.
  - intros _ payload s. apply scripted_served_keeps. intros s'.
    destruct (Scripted.holds _ _); simpl; [done|].
    unfold Scripted.stored. simpl. rewrite map_app, list_to_set_app_L.
    apply union_subseteq_l.
  - intros _ payload s s'. unfold Scripted.served.
    destruct (Scripted.next s) as [[e|] s0]; simpl; [done|].
    destruct (Scripted.holds _ _); simpl; [done|].
    intros [= <-]. unfold Scripted.stored. simpl.
    rewrite map_app, list_to_set_app_L. set_solver.
Qed.



(** * Further properties of the provisioning engine *)

(** ** Counting and ordering the entries *)

Lemma entries_count (items : list (CollectionSchema * Outcome)) :
  length (createdOf items) + length (skippedOf items) + length (errorsOf items)
  = length items.
Proof.
  unfold createdOf, skippedOf, errorsOf, omap.
  induction items as [|[c o] items IH]; [done|].
  destruct o; simpl in *; lia.
Qed.

Lemma skippedOf_sublist (items : list (CollectionSchema * Outcome)) :
  skippedOf items `sublist_of` namesOf items.
Proof.
  unfold skippedOf, namesOf.
  induction items as [|[c o] items IH]; [constructor|].
  destruct o; simpl; (by apply sublist_skip) || (by apply sublist_cons).
Qed.

Lemma errorsOf_sublist (items : list (CollectionSchema * Outcome)) :
  map collection (errorsOf items) `sublist_of` namesOf items.
Proof.
  unfold errorsOf, namesOf.
  induction items as [|[c o] items IH]; [constructor|].
  destruct o; simpl; (by apply sublist_skip) || (by apply sublist_cons).
Qed.

Lemma createdOf_sublist (items : list (CollectionSchema * Outcome)) :
  (∀ c, (c, Updated) ∉ items) →
  createdOf items `sublist_of` namesOf items.
Proof.
  unfold createdOf, namesOf.
  induction items as [|[c o] items IH]; intros Hnone; [constructor|].
  assert (∀ c', (c', Updated) ∉ items) as Hrest
    by (intros c' Hin; apply (Hnone c'); by right).
  destruct o; simpl; try (by apply sublist_skip, IH) || (by apply sublist_cons, IH).
  destruct (Hnone c). by left.
Qed.

Section Entries2.
Context {Net : Type} `{Api : PocketBaseApi Net}.
Implicit Types (st : Run Net) (ex : gset string) (upd : bool).

(** What an outcome says about the listing and about [updateExisting]. *)
Lemma outcomes_sound upd ex schemas st c o :
  (c, o) ∈ outcomes upd ex schemas st →
  c ∈ schemas
  ∧ match o with
    | Created => name c ∉ ex
    | Updated => name c ∈ ex ∧ upd = true
    | Skipped => name c ∈ ex ∧ upd = false
    | Failed _ => True
    end.
Proof.
  revert st. induction schemas as [|c' cs IH]; intros st Hin; simpl in Hin.
  - by apply elem_of_nil in Hin.
  - apply elem_of_cons in Hin as [[= -> ->]|Hin].
    + split; [by left|]. unfold attempt.
      destruct (rejects _ _ _ _); [done|].
      destruct (decide (name c' ∈ ex)); [|done]. by destruct upd.
    + destruct (IH _ Hin) as [Hc Ho]. split; [by right|done].
Qed.

(** The number of entries of a run without a callback that reaches the
    loop: one per schema of the registry, plus the entry of step 2.5 if it
    failed. *)
Lemma default_run_entries options st ex :
  outcome (openSession options) st = inr (Some ex) →
  ∃ r st',
    provisionCollections options st = (inr r, st')
    ∧ length (created r) + length (skipped r) + length (errors r)
      = length (registry options) + length (settingsErrors options st)
    ∧ (length (settingsErrors options st) ≤ 1)%nat.
Proof.
  intros Hout.
  destruct (reached_lists _ _ _ Hout) as (r & st' & Hrun & Hc & Hs & He & _).
  exists r, st'. split; [exact Hrun|]. rewrite Hc, Hs, He. split.
  - rewrite length_app.
    pose proof (entries_count (loopItems options ex st)) as Hcount.
    pose proof (f_equal length (outcomes_fst (updating options) ex
                  (registry options) (beforeLoop options st))) as Hlen.
    rewrite length_fmap in Hlen. fold (loopItems options ex st) in Hlen.
    lia.
  - unfold settingsErrors. destruct (settingsEntry _ _); simpl; lia.
Qed.

(** X2: [skipped] and the tags of the errors of the loop follow the order of the
    registry, and so does [created] when [updateExisting] is off. *)
Theorem entries_follow_registry_order options st ex :
  outcome (openSession options) st = inr (Some ex) →
  ∃ r st' loopErrors,
    provisionCollections options st = (inr r, st')
    ∧ errors r = (settingsErrors options st ++ loopErrors)%list
    ∧ skipped r `sublist_of` map name (registry options)
    ∧ map collection loopErrors `sublist_of` map name (registry options)
    ∧ (updating options = false →
       created r `sublist_of` map name (registry options)).
Proof.
  intros Hout.
  destruct (reached_lists _ _ _ Hout) as (r & st' & Hrun & Hc & Hs & He & _).
  exists r, st', (errorsOf (loopItems options ex st)).
  rewrite Hc, Hs, He, <- (loopItems_names options ex st).
  split; [exact Hrun|]. split; [done|].
  split; [apply skippedOf_sublist|]. split; [apply errorsOf_sublist|].
  intros Hupd. apply createdOf_sublist. intros c Hin.
  apply outcomes_sound in Hin as [_ [_ Htrue]]. congruence.
Qed.

(** X3: every entry of [created] is the bare name of a schema that was not
    listed, or, with [updateExisting] only, the marked name of one that was;
    every entry of [skipped] is a listed name, and nothing is skipped with
    [updateExisting]. *)
Theorem entries_agree_with_listing options st ex :
  outcome (openSession options) st = inr (Some ex) →
  ∃ r st',
    provisionCollections options st = (inr r, st')
    ∧ (∀ x, x ∈ created r →
         ∃ c, c ∈ registry options
              ∧ ((x = name c ∧ name c ∉ ex)
                 ∨ (x = name c +:+ updatedTag ∧ name c ∈ ex
                    ∧ updating options = true)))
    ∧ (∀ x, x ∈ skipped r →
         x ∈ ex ∧ updating options = false
         ∧ ∃ c, c ∈ registry options ∧ x = name c)
    ∧ (updating options = true → skipped r = []).
Proof.
  intros Hout.
  destruct (reached_lists _ _ _ Hout) as (r & st' & Hrun & Hc & Hs & _).
  exists r, st'. split; [exact Hrun|]. rewrite Hc, Hs.
  assert (∀ x, x ∈ skippedOf (loopItems options ex st) →
            x ∈ ex ∧ updating options = false
            ∧ ∃ c, c ∈ registry options ∧ x = name c) as Hskipped.
  { intros x (c & Hin & ->)%elem_of_skippedOf.
    apply outcomes_sound in Hin as [Hreg [Hex Hupd]]. eauto. }
  split; [|split; [exact Hskipped|]].
  - intros x (c & [[Hin ->]|[Hin ->]])%elem_of_createdOf;
      apply outcomes_sound in Hin as [Hreg Ho]; exists c; (split; [done|]).
    + by left.
    + right. by destruct Ho.
  - intros Hupd. destruct (skippedOf _) as [|x xs] eqn:Heq; [done|].
    destruct (Hskipped x) as (_ & Hfalse & _); [by left|congruence].
Qed.

End Entries2.

(** ** Requests and progress messages *)

Section Requests.
Context {Net : Type} `{Api : PocketBaseApi Net}.
Implicit Types (st : Run Net) (ex : gset string) (upd : bool).

Lemma skip_sends_nothing ex schema st :
  name schema ∈ ex →
  net (exec (provisionOne false ex schema) st) = net st.
Proof.
  intros Hin.
  unfold exec, provisionOne, bind, push_skipped, update_result, onProgressDefault,
    modify, set_result. simpl.
  by destruct (decide (name schema ∈ ex)).
Qed.

Lemma skips_send_nothing ex schemas st :
  (∀ c, c ∈ schemas → name c ∈ ex) →
  net (exec (forOf schemas (provisionOne false ex)) st) = net st.
Proof.
  revert st. induction schemas as [|c cs IH]; intros st Hall; [done|].
  rewrite loop_step, IH by (intros c' Hc'; apply Hall; by right).
  apply skip_sends_nothing, Hall. by left.
Qed.

(** X4: without [updateExisting], over a registry that is listed entirely, the
    loop sends no request: the network is as step 2.5 left it, and
    every name is skipped. *)
Theorem listed_registry_sends_no_request options st ex :
  outcome (openSession options) st = inr (Some ex) →
  updating options = false →
  (∀ c, c ∈ registry options → name c ∈ ex) →
  ∃ r st',
    provisionCollections options st = (inr r, st')
    ∧ net st' = net (beforeLoop options st)
    ∧ created r = []
    ∧ skipped r = map name (registry options)
    ∧ errors r = settingsErrors options st.
Proof.
  intros Hout Hupd Hall.
  destruct (reached_lists _ _ _ Hout)
    as (r & st' & Hrun & Hc & Hs & He & _ & _ & Hnet).
  exists r, st'. split; [exact Hrun|]. split.
  - rewrite Hnet. unfold afterLoop. rewrite Hupd. by apply skips_send_nothing.
  - assert (loopItems options ex st = map (λ c, (c, Skipped)) (registry options))
      as Hitems.
    { unfold loopItems. rewrite Hupd. revert Hall.
      generalize (beforeLoop options st). generalize (registry options).
      intros cs. induction cs as [|c cs IH]; intros s Hall; [done|].
      simpl. rewrite IH by (intros c' Hc'; apply Hall; by right).
      unfold attempt, rejects.
      destruct (decide (name c ∈ ex)) as [|Hout']; [done|].
      destruct Hout'. apply Hall. by left. }
    rewrite Hitems in *. clear Hitems.
    assert (createdOf (map (λ c, (c, Skipped)) (registry options)) = []
            ∧ skippedOf (map (λ c, (c, Skipped)) (registry options))
              = map name (registry options)
            ∧ errorsOf (map (λ c, (c, Skipped)) (registry options)) = [])
      as (Ec & Es & Ee).
    { generalize (registry options). intros cs.
      unfold createdOf, skippedOf, errorsOf, omap.
      induction cs as [|c cs (IHc & IHs & IHe)]; [done|]. simpl.
      split; [exact IHc|]. split; [|exact IHe]. f_equal. exact IHs. }
    rewrite Ec in Hc. rewrite Es in Hs. rewrite Ee, app_nil_r in He. done.
Qed.

(** *** Progress *)






(** X6: over an empty registry, a run that reaches the loop without a settings
    error succeeds with three empty sequences and the message that 0
    collections were created, and the loop sends no request. *)
Theorem empty_registry_succeeds_with_nothing options st ex :
  outcome (openSession options) st = inr (Some ex) →
  collections options = Some [] →
  settingsErrors options st = [] →
  ∃ st',
    provisionCollections options st
    = (inr (mkResult true [] [] [] "Successfully created 0 collection(s)"), st')
    ∧ net st' = net (beforeLoop options st).
Proof.
  intros Hout Hempty Hsettings. rewrite (run_reaching_loop _ _ _ Hout).
  assert (afterLoop options ex st = beforeLoop options st) as ->.
  { unfold afterLoop, registry. by rewrite Hempty. }
  assert (result (beforeLoop options st) = emptyResult) as ->.
  { unfold beforeLoop. rewrite applySettings_result.
    unfold settingsErrors in Hsettings.
    destruct (settingsEntry _ _); [done|].
    by destruct (openSession_reached _ _ _ Hout) as (_ & -> & _). }
  eexists. split; reflexivity.
Qed.

(** X8: [validateAdminCredentials] never throws and sends the authentication
    request and nothing else.  When the request resolves it reports valid
    and the auth store ends empty; when the request is rejected it reports
    the message of the error and the store is left as the new client had
    it. *)
Theorem validateAdminCredentials_reports saved pbUrl email password st :
  ∃ r,
    validateAdminCredentials saved pbUrl email password st
    = (inr r, exec (validateAdminCredentials saved pbUrl email password) st)
    ∧ net (exec (validateAdminCredentials saved pbUrl email password) st)
      = (admins_authWithPassword (mkClient pbUrl saved) email password (net st)).2
    ∧ match (admins_authWithPassword (mkClient pbUrl saved) email password (net st)).1 with
      | inr _ =>
          r = mkCredentials true "Credentials valid"
          ∧ authStore (pb (exec (validateAdminCredentials saved pbUrl email password) st))
            = None
      | inl e =>
          r = mkCredentials false (errorMsg e)
          ∧ authStore (pb (exec (validateAdminCredentials saved pbUrl email password) st))
            = saved
      end.
Proof.
  unfold exec, validateAdminCredentials, pb_admins_authWithPassword,
    pb_authStore_clear, try_catch, bind, call, modify, ret, set_pb, set_net.
  simpl. destruct (admins_authWithPassword _ _ _ _) as [[e|token] n]; simpl; eauto.
Qed.

End Requests.

Section Authenticated.
Context {Net : Type} `{Api : PocketBaseApi Net}.

(** X7: in a run that reaches the loop, every pass starts with the client holding
    the token that authentication returned, and the store is empty when the
    run ends. *)
Theorem loop_runs_authenticated options (st : Run Net) ex :
  outcome (openSession options) st = inr (Some ex) →
  ∃ token n,
    admins_authWithPassword (freshClient options) (adminEmail options)
      (adminPassword options) (net st) = (inr token, n)
    ∧ (∀ before after,
         registry options = (before ++ after)%list →
         pb (exec (forOf before (provisionOne (updating options) ex))
               (beforeLoop options st))
         = adminClient options token)
    ∧ authStore (pb (exec (provisionCollections options) st)) = None.
Proof.
  intros Hout. destruct (opening options st).
  - unfold outcome in Hout. by rewrite (openSession_auth_failed _ _ _ _ Hauth) in Hout.
  - unfold outcome in Hout.
    by rewrite (openSession_fetch_failed _ _ _ _ _ _ Hauth Hlist) in Hout.
  - exists token, n. split; [exact Hauth|]. split.
    + intros before after _. rewrite loop_pb. unfold beforeLoop.
      rewrite applySettings_pb.
      destruct (openSession_connected _ _ _ _ _ _ Hauth Hlist) as [log Hrun].
      unfold exec. by rewrite Hrun.
    + by apply session_after_loop with ex.
Qed.

End Authenticated.

Lemma loop_runs_authenticated_witness :
  ∃ token n,
    admins_authWithPassword
      (freshClient (Scripted.options DEFAULT_COLLECTIONS false None))
      "admin@example.com" "secret" (Scripted.mkServer [] []) = (inr token, n)
    ∧ pb (exec (forOf [testItemsCollection] (provisionOne false ∅))
            (beforeLoop (Scripted.options DEFAULT_COLLECTIONS false None)
               (Scripted.start (Scripted.mkServer [] []))))
      = mkClient "http://127.0.0.1:8090" (Some token).
Proof.
  destruct (loop_runs_authenticated
              (Scripted.options DEFAULT_COLLECTIONS false None)
              (Scripted.start (Scripted.mkServer [] [])) ∅)
    as (token & n & Hauth & Hloop & _).
  - vm_compute. reflexivity.
  - exists token, n. split; [exact Hauth|].
    apply (Hloop [testItemsCollection] [tweetsCollection]). reflexivity.
Defined.

(** * Runs with a callback of the caller *)

(** ** A callback that never throws changes nothing in the run *)

Section Following.
Context {Net : Type} `{Api : PocketBaseApi Net} {U : Type}.
Variable callback : option (Callback U).
Hypothesis callback_returns : neverThrows callback.

Lemma follows_ret {A} (a : A) : follows (Net:=Net) (U:=U) (ret a) (ret a).
Proof. intros st u. by exists u. Qed.

Lemma follows_own {A} (c : Js (Run Net) A) : follows (U:=U) (own c) c.
Proof. intros st u. exists u. unfold own. simpl. by destruct (c st). Qed.

Lemma follows_bind {A B} (c' : Js (Run Net * U) A) c
    (k' : A → Js (Run Net * U) B) k :
  follows c' c → (∀ a, follows (k' a) (k a)) → follows (bind c' k') (bind c k).
Proof.
  intros Hc Hk st u. unfold bind. destruct (Hc st u) as [u1 ->].
  destruct (c st) as [[e|a] st1]; simpl; [by exists u1|apply Hk].
Qed.

Lemma follows_try_catch {A} (c' : Js (Run Net * U) A) c
    (h' : JsError → Js (Run Net * U) A) h :
  follows c' c → (∀ e, follows (h' e) (h e)) →
  follows (try_catch c' h') (try_catch c h).
Proof.
  intros Hc Hh st u. unfold try_catch. destruct (Hc st u) as [u1 ->].
  destruct (c st) as [[e|a] st1]; simpl; [apply Hh|by exists u1].
Qed.

Lemma follows_forOf {A} (xs : list A) (body' : A → Js (Run Net * U) unit) body :
  (∀ x, follows (body' x) (body x)) → follows (forOf xs body') (forOf xs body).
Proof.
  intros Hbody. induction xs as [|x xs IH]; simpl.
  - apply follows_ret.
  - apply follows_bind; [apply Hbody|intros _; exact IH].
Qed.

Lemma follows_callOnProgress msg :
  follows (Net:=Net) (callOnProgress callback msg) (onProgressDefault msg).
Proof.
  intros st u. unfold callOnProgress, own, onProgressDefault, bind, modify. simpl.
  destruct callback as [f|] eqn:Hgiven; simpl.
  - pose proof (callback_returns f eq_refl msg u) as Hreturns.
    destruct (f msg u) as [o u1]. simpl in Hreturns. subst o. by exists u1.
  - by exists u.
Qed.

Ltac follow :=
  repeat first
    [ apply follows_callOnProgress
    | apply follows_own
    | apply follows_ret
    | apply follows_bind; [|intros ?]
    | apply follows_try_catch; [|intros ?]
    | apply follows_forOf; intros ?
    | match goal with
      | |- follows (if ?b then _ else _) (if ?b then _ else _) => destruct b
      | |- follows (match ?x with _ => _ end) (match ?x with _ => _ end) =>
          destruct x
      end ].

Lemma connectWith_follows email password :
  follows (connectWith callback email password) (connect email password).
Proof. unfold connectWith, connect. follow. Qed.

Lemma applySettingsWith_follows settings :
  follows (applySettingsWith callback settings) (applySettings settings).
Proof. unfold applySettingsWith, applySettings. cbn zeta. follow. Qed.

Lemma provisionOneWith_follows upd ex schema :
  follows (provisionOneWith callback upd ex schema) (provisionOne upd ex schema).
Proof. unfold provisionOneWith, provisionOne. follow. Qed.

End Following.

Section FollowingRun.
Context {Net : Type} `{Api : PocketBaseApi Net} {U : Type}.
Variable options : ProvisionOptions U.
Hypothesis callback_returns : neverThrows (onProgress options).

Lemma openSessionWith_follows :
  follows (openSessionWith options) (openSession options).
Proof.
  unfold openSessionWith, openSession.
  apply follows_bind; [apply follows_own|intros _].
  apply follows_bind; [apply follows_own|intros _].
  by apply connectWith_follows.
Qed.

Lemma provisionCollectionsWith_follows :
  follows (provisionCollectionsWith options) (provisionCollections options).
Proof.
  unfold provisionCollectionsWith, provisionCollections. cbn zeta.
  apply follows_bind; [apply openSessionWith_follows|intros [ex|]].
  - apply follows_bind; [by apply applySettingsWith_follows|intros _].
    apply follows_bind;
      [apply follows_forOf; intros schema; by apply provisionOneWith_follows
      |intros _].
    repeat (apply follows_bind; [apply follows_own|intros _]).
    apply follows_own.
  - apply follows_own.
Qed.

(** The run with the callback returns what the run without one returns,
    and leaves the network, the client and the log as that run does. *)
Lemma run_with_callback (st : Run Net) (u : U) r st' :
  provisionCollections options st = (inr r, st') →
  ∃ u', provisionCollectionsWith options (st, u) = (inr r, (st', u')).
Proof.
  intros Hrun. destruct (provisionCollectionsWith_follows st u) as [u' ->].
  rewrite Hrun. by exists u'.
Qed.

End FollowingRun.

(** ** C9: when the run returns

    The conditions on the answers of the server are read on the run
    without a callback, which a run whose callback never throws follows
    step by step. *)

Section WithCallback.
Context {Net : Type} `{Api : PocketBaseApi Net} {U : Type}.
Implicit Types (options : ProvisionOptions U) (st : Run Net) (u : U).

(** C9 (amended): with a callback that never throws, [provisionCollections]
    never throws.  Whatever the server answers, the run returns a result,
    and every rejected request is in it: a rejected authentication or
    listing as the single entry "_admin" or "_system" with [success] false,
    a rejected settings update and every rejected creation or update as an
    entry of [errors]. *)
Theorem provisionCollections_never_throws options st u :
  neverThrows (onProgress options) →
  ∃ r st' u',
    provisionCollectionsWith options (st, u) = (inr r, (st', u'))
    ∧ (∀ tag e n, fatal options st tag e n →
         errors r = [mkError tag (errorMsg e)] ∧ success r = false)
    ∧ (∀ ex, outcome (openSession options) st = inr (Some ex) →
         (∀ e, e ∈ settingsErrors options st → e ∈ errors r)
         ∧ (∀ c msg, (c, Failed msg) ∈ loopItems options ex st →
              mkError (name c) msg ∈ errors r)
         ∧ (errors r ≠ [] → success r = false)).
Proof.
  intros Hreturns.
  destruct (default_run_returns options st) as (r & st' & Hrun & Hfatal & Hloop).
  destruct (run_with_callback options Hreturns st u r st' Hrun)
    as [u' Hwith].
  by exists r, st', u'.
Qed.

(** ** C1: the partition of the registry *)

(** C1 (amended): in a run that reaches the per-schema loop, with a callback
    that never throws, over a registry whose names are pairwise distinct
    and of which none is another one followed by " (updated)", and in which
    step 2.5 has recorded no error under a name of the registry, every
    schema name is in exactly one of [created] (bare or marked
    " (updated)"), [skipped] and [errors], and the three sequences share no
    entry. *)
Theorem registry_partitioned options st u (ex : gset string) :
  neverThrows (onProgress options) →
  outcome (openSession options) st = inr (Some ex) →
  NoDup (map name (registry options)) →
  unmarked (map name (registry options)) →
  (∀ e, e ∈ settingsErrors options st →
        collection e ∉ map name (registry options)) →
  ∃ r st' u',
    provisionCollectionsWith options (st, u) = (inr r, (st', u'))
    ∧ partitioned (map name (registry options)) r.
Proof.
  intros Hreturns Hout Hdistinct Hplain Hforeign.
  destruct (default_run_partitioned options st ex Hout Hdistinct Hplain Hforeign)
    as (r & st' & Hrun & Hparts).
  destruct (run_with_callback options Hreturns st u r st' Hrun)
    as [u' Hwith].
  by exists r, st', u'.
Qed.

(** ** C4: a failed pass does not stop the loop *)

(** C4 (amended): with a callback that never throws, when the request of
    the pass over a schema is rejected, the run still makes a pass over
    every later schema of the registry, each from the state the pass before
    it has left and each with an outcome of its own, and records all of
    them after the entry of the failed pass. *)
Theorem failed_pass_does_not_stop_the_loop options st u ex
    before failing after e :
  neverThrows (onProgress options) →
  outcome (openSession options) st = inr (Some ex) →
  registry options = (before ++ failing :: after)%list →
  rejects (updating options) ex failing
    (exec (forOf before (provisionOne (updating options) ex))
       (beforeLoop options st)) = Some e →
  let pass := provisionOne (updating options) ex in
  let reached := exec (forOf before pass) (beforeLoop options st) in
  let passed := outcomes (updating options) ex before (beforeLoop options st) in
  let rest := outcomes (updating options) ex after (exec (pass failing) reached) in
  ∃ r st' u',
    provisionCollectionsWith options (st, u) = (inr r, (st', u'))
    ∧ created r = (createdOf passed ++ createdOf rest)%list
    ∧ skipped r = (skippedOf passed ++ skippedOf rest)%list
    ∧ errors r = (settingsErrors options st ++ errorsOf passed
                  ++ mkError (name failing) (errorMsg e) :: errorsOf rest)%list
    ∧ rest.*1 = after
    ∧ (∀ c, c ∈ after →
         inCreated (name c) r ∨ inSkipped (name c) r ∨ inErrors (name c) r)
    ∧ net st' = net (exec (forOf after pass) (exec (pass failing) reached)).
Proof.
  intros Hreturns Hout Hreg Hrej pass reached passed rest.
  destruct (default_run_isolates_failure options st ex before failing after e
              Hout Hreg Hrej) as (r & st' & Hrun & Hlists).
  destruct (run_with_callback options Hreturns st u r st' Hrun)
    as [u' Hwith].
  by exists r, st', u'.
Qed.

(** ** Entries and messages *)

(** X1: in a run that reaches the loop, with a callback that never throws,
    the three sequences hold together one entry per schema of the registry,
    plus the entry of step 2.5 if it failed; duplicate names do not change
    the count. *)
Theorem one_entry_per_pass options st u ex :
  neverThrows (onProgress options) →
  outcome (openSession options) st = inr (Some ex) →
  ∃ r st' u',
    provisionCollectionsWith options (st, u) = (inr r, (st', u'))
    ∧ length (created r) + length (skipped r) + length (errors r)
      = length (registry options) + length (settingsErrors options st)
    ∧ (length (settingsErrors options st) ≤ 1)%nat.
Proof.
  intros Hreturns Hout.
  destruct (default_run_entries options st ex Hout) as (r & st' & Hrun & Hcount).
  destruct (run_with_callback options Hreturns st u r st' Hrun)
    as [u' Hwith].
  by exists r, st', u'.
Qed.


End WithCallback.

(** ** Instances and failures on the scripted server *)

Lemma provisionCollections_never_throws_witness :
  ∃ r st' console,
    provisionCollectionsWith
      (withCallback (Scripted.options DEFAULT_COLLECTIONS false None)
         (Some setupCallback))
      (Scripted.start
         (Scripted.mkServer [] [None; None; Some (ErrorInstance "invalid schema")]),
       [])
    = (inr r, (st', console))
    ∧ (mkError "test_items" "invalid schema" ∈ errors r)
    ∧ success r = false.
Proof.
  destruct (provisionCollections_never_throws
              (withCallback (Scripted.options DEFAULT_COLLECTIONS false None)
                 (Some setupCallback))
              (Scripted.start
                 (Scripted.mkServer []
                    [None; None; Some (ErrorInstance "invalid schema")]))
              [])
    as (r & st' & console & Hrun & _ & Hloop).
  - intros f Hf msg console. injection Hf as <-. reflexivity.
  - exists r, st', console. split; [exact Hrun|].
    destruct (Hloop ∅) as (_ & Hfailed & Hsuccess); [vm_compute; reflexivity|].
    assert (mkError "test_items" "invalid schema" ∈ errors r) as Hin.
    { apply (Hfailed testItemsCollection "invalid schema").
      vm_compute. left. }
    split; [exact Hin|]. apply Hsuccess. intros Hnone. rewrite Hnone in Hin.
    by apply elem_of_nil in Hin.
Defined.

(** C9 as stated fails: a callback that throws on the first message of a
    pass, which line 345 sends outside every [try]; the run throws what the
    callback has thrown, and the session stays open. *)
Lemma provisionCollections_throws_with_callback :
  let options := withCallback (Scripted.options DEFAULT_COLLECTIONS false None)
                   (Some (throwingOn "Processing")) in
  let st := Scripted.start (Scripted.mkServer [] []) in
  (∃ st',
     provisionCollectionsWith options (st, tt)
     = (inl (ErrorInstance "write EPIPE"), (st', tt))
     ∧ authStore (pb st') = Some "admin-token")
  ∧ ¬ (∃ r s, provisionCollectionsWith options (st, tt) = (inr r, s)).
Proof.
  split.
  - eexists. split; [vm_compute; reflexivity|]. reflexivity.
  - intros (r & s & Hrun). vm_compute in Hrun. discriminate.
Qed.

Lemma registry_partitioned_witness :
  ∃ r st' console,
    provisionCollectionsWith
      (withCallback (Scripted.options DEFAULT_COLLECTIONS true None)
         (Some setupCallback))
      (Scripted.start
         (Scripted.mkServer [mkModel "c1" "tweets"]
            [None; None; None; Some (Thrown "503")]),
       [])
    = (inr r, (st', console))
    ∧ partitioned (map name DEFAULT_COLLECTIONS) r.
Proof.
  apply (registry_partitioned
           (withCallback (Scripted.options DEFAULT_COLLECTIONS true None)
              (Some setupCallback))
           (Scripted.start (Scripted.mkServer [mkModel "c1" "tweets"]
                              [None; None; None; Some (Thrown "503")]))
           [] {[ "tweets" ]}).
  - intros f Hf msg console. injection Hf as <-. reflexivity.
  - vm_compute. reflexivity.
  - apply (bool_decide_unpack _). vm_compute. exact I.
  - apply unmarked_Forall. apply (bool_decide_unpack _). vm_compute. exact I.
  - intros e He. vm_compute in He. by apply elem_of_nil in He.
Defined.

(** The partition also needs the callback to return: one that throws on the
    message of line 371 is called after "a" has been pushed to [created],
    and the [catch] clause then pushes "a" to [errors]. *)
Example partition_broken_by_throwing_callback :
  ∃ r s,
    provisionCollectionsWith
      (withCallback (Scripted.options [Scripted.schema "a"] false None)
         (Some (throwingOn "✓ Created")))
      (Scripted.start (Scripted.mkServer [] []), tt)
    = (inr r, s)
    ∧ created r = ["a"]
    ∧ errors r = [mkError "a" "write EPIPE"]
    ∧ ¬ partitioned ["a"] r.
Proof.
  eexists _, _. split; [vm_compute; reflexivity|]. split; [reflexivity|].
  split; [reflexivity|].
  intros (_ & _ & Hdisjoint & _). apply (Hdisjoint "a"); simpl; set_solver.
Qed.

Lemma failed_pass_does_not_stop_the_loop_witness :
  ∃ r st' console,
    provisionCollectionsWith
      (withCallback
         (Scripted.options
            [Scripted.schema "a"; Scripted.schema "b"; Scripted.schema "c"] false None)
         (Some setupCallback))
      (Scripted.start
         (Scripted.mkServer [mkModel "c0" "c"]
            [None; None; None; Some (ErrorInstance "invalid schema")]),
       [])
    = (inr r, (st', console))
    ∧ created r = ["a"]
    ∧ skipped r = ["c"]
    ∧ errors r = [mkError "b" "invalid schema"].
Proof.
  destruct (failed_pass_does_not_stop_the_loop
              (withCallback
                 (Scripted.options
                    [Scripted.schema "a"; Scripted.schema "b"; Scripted.schema "c"]
                    false None)
                 (Some setupCallback))
              (Scripted.start
                 (Scripted.mkServer [mkModel "c0" "c"]
                    [None; None; None; Some (ErrorInstance "invalid schema")]))
              [] {[ "c" ]} [Scripted.schema "a"] (Scripted.schema "b")
              [Scripted.schema "c"] (ErrorInstance "invalid schema"))
    as (r & st' & console & Hrun & Hc & Hs & He & _).
  - intros f Hf msg console. injection Hf as <-. reflexivity.
  - vm_compute. reflexivity.
  - reflexivity.
  - vm_compute. reflexivity.
  - exists r, st', console. split; [exact Hrun|]. split; [|split].
    + rewrite Hc. vm_compute. reflexivity.
    + rewrite Hs. vm_compute. reflexivity.
    + rewrite He. vm_compute. reflexivity.
Defined.

(** C4 as stated fails: the creation of "a" is rejected and the callback
    throws on the message of the [catch] clause (line 375); the run throws,
    the pass over "b" never starts and "b", which the server would have
    created, is not created. *)
Lemma failed_pass_stops_the_loop_with_callback :
  let options := withCallback
                   (Scripted.options [Scripted.schema "a"; Scripted.schema "b"]
                      false None)
                   (Some (throwingOn "✗")) in
  let st := Scripted.start
              (Scripted.mkServer []
                 [None; None; Some (ErrorInstance "invalid schema")]) in
  (∃ ex, outcome (openSession options) st = inr (Some ex)
         ∧ rejects (updating options) ex (Scripted.schema "a")
             (beforeLoop options st)
           = Some (ErrorInstance "invalid schema"))
  ∧ (∃ st',
       provisionCollectionsWith options (st, tt)
       = (inl (ErrorInstance "write EPIPE"), (st', tt))
       ∧ errors (result st') = [mkError "a" "invalid schema"]
       ∧ ("Processing " +:+ quoted "b" +:+ "..." ∉ progress st')
       ∧ Scripted.held (net st') = [])
  ∧ ¬ (∃ r s, provisionCollectionsWith options (st, tt) = (inr r, s)).
Proof.
  split; [|split].
  - exists ∅. split; vm_compute; reflexivity.
  - eexists. split; [vm_compute; reflexivity|]. split; [reflexivity|].
    split; [|reflexivity].
    apply (bool_decide_unpack _). vm_compute. exact I.
  - intros (r & s & Hrun). vm_compute in Hrun. discriminate.
Qed.

Lemma one_entry_per_pass_witness :
  ∃ r st' console,
    provisionCollectionsWith
      (withCallback
         (Scripted.options DEFAULT_COLLECTIONS false (Some Scripted.googleAuth))
         (Some setupCallback))
      (Scripted.start
         (Scripted.mkServer [mkModel "c1" "tweets"]
            [None; None; Some (ErrorInstance "no users collection")]),
       [])
    = (inr r, (st', console))
    ∧ length (created r) + length (skipped r) + length (errors r) = 3.
Proof.
  destruct (one_entry_per_pass
              (withCallback
                 (Scripted.options DEFAULT_COLLECTIONS false
                    (Some Scripted.googleAuth))
                 (Some setupCallback))
              (Scripted.start
                 (Scripted.mkServer [mkModel "c1" "tweets"]
                    [None; None; Some (ErrorInstance "no users collection")]))
              [] {[ "tweets" ]})
    as (r & st' & console & Hrun & Hcount & _).
  - intros f Hf msg console. injection Hf as <-. reflexivity.
  - vm_compute. reflexivity.
  - exists r, st', console. split; [exact Hrun|]. rewrite Hcount.
    vm_compute. reflexivity.
Defined.

(** Without the condition on the callback the count fails: the pass over
    "a" leaves two entries. *)
Example two_entries_for_one_pass :
  ∃ r s,
    provisionCollectionsWith
      (withCallback (Scripted.options [Scripted.schema "a"] false None)
         (Some (throwingOn "✓ Created")))
      (Scripted.start (Scripted.mkServer [] []), tt)
    = (inr r, s)
    ∧ length (created r) + length (skipped r) + length (errors r) = 2.
Proof. eexists _, _. split; [vm_compute; reflexivity|]. reflexivity. Qed.


(** With the callback of the setup script the console shows what the run
    has done. *)
Example console_of_the_setup_script :
  ∃ r st',
    provisionCollectionsWith
      (withCallback (Scripted.options [Scripted.schema "a"] false None)
         (Some setupCallback))
      (Scripted.start (Scripted.mkServer [] []), [])
    = (inr r,
       (st',
        [ LogInfo "Authenticating as admin...";
          LogSuccess "Admin authentication successful";
          LogInfo "Fetching existing collections...";
          LogSuccess "Found 0 existing collections";
          LogInfo ("Processing " +:+ quoted "a" +:+ "...");
          LogSuccess ("Created " +:+ quoted "a") ])).
Proof. eexists _, _. vm_compute. reflexivity. Qed.

(** Without the condition on the callback the count of the messages fails
    too: the pass over "a" calls the callback three times. *)
Example three_messages_for_one_pass :
  ∃ r st',
    provisionCollectionsWith
      (withCallback (Scripted.options [Scripted.schema "a"] false None)
         (Some (throwingOn "✓ Created")))
      (Scripted.start (Scripted.mkServer [] []), tt)
    = (inr r, (st', tt))
    ∧ length (progress st') = 7.
Proof. eexists _, _. split; [vm_compute; reflexivity|]. reflexivity. Qed.

(** With the option left out the run is the run without a callback. *)
Example callback_left_out :
  ∃ r st',
    provisionCollectionsWith
      (withCallback (Scripted.options DEFAULT_COLLECTIONS false None) None)
      (Scripted.start (Scripted.mkServer [] []), tt)
    = (inr r, (st', tt))
    ∧ provisionCollections (Scripted.options DEFAULT_COLLECTIONS false None)
        (Scripted.start (Scripted.mkServer [] []))
      = (inr r, st').
Proof. eexists _, _. split; vm_compute; reflexivity. Qed.

(** * Properties of the rest of the library *)

(** ** The schema helpers *)

Lemma ruleOr_expr rule fallback : isExpr (ruleOr rule fallback).
Proof. destruct rule; simpl; unfold isExpr; eauto. Qed.

Lemma ruleOr_granted asked : granted asked (ruleOr asked authExpr).
Proof.
  split; [apply ruleOr_expr|]. split.
  - by intros expr ->.
  - by intros [-> | ->].
Qed.

(** X9: a schema made by [createCollectionSchema] never carries a locked or
    absent rule to the payload: a rule given as an expression (the empty
    one included) is kept, and one given as [null] or left out becomes the
    auth-only rule; the type defaults to base and the indexes to none. *)
Theorem createCollectionSchema_never_locks name fields options :
  let asked := default noSchemaOptions options in
  let payload := buildCollectionPayload (createCollectionSchema name fields options) in
  Forall2 granted
    [ o_listRule asked; o_viewRule asked; o_createRule asked;
      o_updateRule asked; o_deleteRule asked ]
    [ p_listRule payload; p_viewRule payload; p_createRule payload;
      p_updateRule payload; p_deleteRule payload ]
  ∧ p_type payload = default Cbase (o_type asked)
  ∧ p_indexes payload = default [] (o_indexes asked).
Proof.
  simpl. split; [|done].
  repeat (apply Forall2_cons; split; [apply ruleOr_granted|]). constructor.
Qed.

(** X10: [createPublicCollectionSchema] makes the list and view rules public
    whatever the options say about them, and treats the three write rules as
    [createCollectionSchema] does. *)
Theorem createPublicCollectionSchema_is_public name fields options :
  let asked := default noSchemaOptions options in
  let schema := createPublicCollectionSchema name fields options in
  listRule schema = RuleExpr EmptyString
  ∧ viewRule schema = RuleExpr EmptyString
  ∧ Forall2 granted
      [ o_createRule asked; o_updateRule asked; o_deleteRule asked ]
      [ createRule schema; updateRule schema; deleteRule schema ]
  ∧ (∀ list view,
       createPublicCollectionSchema name fields
         (Some (mkSchemaOptions (o_type asked) (o_indexes asked) list view
                  (o_createRule asked) (o_updateRule asked) (o_deleteRule asked)))
       = schema).
Proof.
  simpl. split; [done|]. split; [done|]. split; [|done].
  repeat (apply Forall2_cons; split; [apply ruleOr_granted|]). constructor.
Qed.

(** ** Summaries of test groups *)

Lemma getGroupSummary_app xs ys :
  getGroupSummary (xs ++ ys) = addSummary (getGroupSummary xs) (getGroupSummary ys).
Proof.
  unfold getGroupSummary, addSummary. simpl.
  by rewrite !filter_app, !length_app.
Qed.

(** X11: in a summary, passed, failed and running together never exceed the
    total, and reach it exactly when no test is idle or skipped. *)
Theorem summary_counts_within_total tests :
  let s := getGroupSummary tests in
  (passed s + failed s + running s ≤ total s)%nat
  ∧ (passed s + failed s + running s = total s ↔ Forall settled tests).
Proof.
  induction tests as [|t ts [IHle IHeq]]; simpl in *.
  - split; [lia|]. split; [by constructor|done].
  - rewrite !filter_cons, Forall_cons, <- IHeq. unfold settled.
    destruct (t_status t) eqn:Hs; repeat case_decide; try congruence; simpl.
    + split; [lia|]. split; [intros; lia|]. intros [[?|[?|?]] _]; congruence.
    + split; [lia|]. split; [intros; split; [auto|lia]|]. intros [_ ?]; lia.
    + split; [lia|]. split; [intros; split; [auto|lia]|]. intros [_ ?]; lia.
    + split; [lia|]. split; [intros; split; [auto|lia]|]. intros [_ ?]; lia.
    + split; [lia|]. split; [intros; lia|]. intros [[?|[?|?]] _]; congruence.
Qed.

(** X12: the summary of the dashboard is the sum of the summaries of its groups. *)
Theorem getTotalSummary_adds_groups testGroups :
  getTotalSummary testGroups
  = foldr (λ group acc, addSummary (getGroupSummary (g_tests group)) acc)
      (mkSummary 0 0 0 0) testGroups.
Proof.
  unfold getTotalSummary. induction testGroups as [|g gs IH]; [done|].
  cbn [foldr]. by rewrite <- IH, bind_cons, getGroupSummary_app.
Qed.

(** ** Updating a test of the dashboard *)

Lemma spreadUpdates_twice test updates :
  spreadUpdates (spreadUpdates test updates) updates = spreadUpdates test updates.
Proof.
  unfold spreadUpdates. simpl.
  by destruct (u_id updates), (u_name updates), (u_description updates),
    (u_status updates), (u_duration updates), (u_error updates),
    (u_details updates).
Qed.

Lemma updateTests_twice testId updates tests :
  updateTests testId updates (updateTests testId updates tests)
  = updateTests testId updates tests.
Proof.
  unfold updateTests. rewrite map_map. apply map_ext. intros t.
  destruct (decide (t_id t = testId)) as [Ht|Ht].
  - destruct (decide (t_id (spreadUpdates t updates) = testId)); [|done].
    apply spreadUpdates_twice.
  - by case_decide.
Qed.

(** X13: applying the same update twice is applying it once. *)
Theorem updateTest_idempotent groupId testId updates testGroups :
  updateTest groupId testId updates (updateTest groupId testId updates testGroups)
  = updateTest groupId testId updates testGroups.
Proof.
  unfold updateTest. rewrite map_map. apply map_ext. intros g.
  destruct (decide (g_id g = groupId)) as [Hg|Hg]; simpl.
  - case_decide; [|done]. f_equal. apply updateTests_twice.
  - by case_decide.
Qed.

Lemma total_of_groups testGroups :
  total (getTotalSummary testGroups)
  = sum_list (map (λ g, length (g_tests g)) testGroups).
Proof.
  unfold getTotalSummary. cbn [total getGroupSummary].
  induction testGroups as [|g gs IH]; [done|].
  rewrite bind_cons, length_app, IH. done.
Qed.

(** X14: [updateTest] keeps the groups, their order and the number of tests of
    each, hence the total of the summary; it keeps the ids of the tests too
    unless the update carries an id. *)
Theorem updateTest_keeps_the_shape groupId testId updates testGroups :
  let updated := updateTest groupId testId updates testGroups in
  map g_id updated = map g_id testGroups
  ∧ map (λ g, length (g_tests g)) updated
    = map (λ g, length (g_tests g)) testGroups
  ∧ total (getTotalSummary updated) = total (getTotalSummary testGroups)
  ∧ (u_id updates = None →
     map (λ g, map t_id (g_tests g)) updated
     = map (λ g, map t_id (g_tests g)) testGroups).
Proof.
  cbn zeta.
  assert (map (λ g, length (g_tests g)) (updateTest groupId testId updates testGroups)
          = map (λ g, length (g_tests g)) testGroups) as Hlen.
  { unfold updateTest. rewrite map_map. apply map_ext. intros g.
    case_decide; [|done]. simpl. by rewrite length_map. }
  split; [|split; [exact Hlen|split]].
  - unfold updateTest. rewrite map_map. apply map_ext. intros g. by case_decide.
  - by rewrite !total_of_groups, Hlen.
  - intros Hid. unfold updateTest. rewrite map_map. apply map_ext. intros g.
    case_decide; [|done]. simpl. rewrite map_map. apply map_ext. intros t.
    case_decide; [|done]. unfold spreadUpdates. simpl. by rewrite Hid.
Qed.

(** X15: an update aimed at a group or a test that is not there changes nothing. *)
Theorem updateTest_unknown_target groupId testId updates testGroups :
  (∀ g t, g ∈ testGroups → g_id g = groupId → t ∈ g_tests g → t_id t ≠ testId) →
  updateTest groupId testId updates testGroups = testGroups.
Proof.
  intros Hnone. unfold updateTest.
  induction testGroups as [|g gs IH]; [done|]. simpl.
  rewrite IH by (intros g' t Hg'; apply Hnone; by right). f_equal.
  destruct (decide (g_id g = groupId)) as [Hg|]; [|done].
  destruct g as [gid gname gicon gdesc tests]. simpl in *. f_equal.
  assert (∀ t, t ∈ tests → t_id t ≠ testId) as Htests.
  { intros t Ht. by apply (Hnone (mkGroup gid gname gicon gdesc tests) t); [left| |]. }
  clear -Htests. induction tests as [|t ts IHt]; [done|]. simpl.
  rewrite IHt by (intros t' Ht'; apply Htests; by right).
  by rewrite decide_False by (apply Htests; by left).
Qed.

(** ** Realtime events on the timeline *)

(** X16: a create event followed by the delete event of the same record gives the
    timeline back, when no tweet had that id before. *)
Theorem create_then_delete_restores record tweets :
  rec_id record ∉ map rec_id tweets →
  onTweetEvent "delete" record (onTweetEvent "create" record tweets) = tweets.
Proof.
  intros Hfresh. unfold onTweetEvent. simpl.
  rewrite filter_cons, decide_False by (intros H; by apply H).
  induction tweets as [|t ts IH]; [done|].
  rewrite filter_cons. simpl in Hfresh.
  apply not_elem_of_cons in Hfresh as [Hne Hfresh].
  rewrite decide_True by done. f_equal. by apply IH.
Qed.

(** X17: after a delete event no tweet has the id of the record, the other tweets
    are all there in their order, and a second delete changes nothing. *)
Theorem delete_removes_the_record record tweets :
  let remaining := onTweetEvent "delete" record tweets in
  (rec_id record ∉ map rec_id remaining)
  ∧ remaining `sublist_of` tweets
  ∧ (∀ t, t ∈ tweets → rec_id t ≠ rec_id record → t ∈ remaining)
  ∧ onTweetEvent "delete" record remaining = remaining.
Proof.
  simpl. unfold onTweetEvent. simpl. split; [|split; [|split]].
  - intros (t & Hid & Ht)%list_elem_of_fmap.
    apply list_elem_of_filter in Ht as [Hne _]. by apply Hne.
  - apply sublist_filter.
  - intros t Ht Hne. by apply list_elem_of_filter.
  - induction tweets as [|t ts IH]; [done|].
    rewrite filter_cons. case_decide; [|done].
    rewrite filter_cons, decide_True by done. by f_equal.
Qed.

(** X18: an update event keeps the sequence of ids, puts the record wherever its
    id was, and changes nothing when the id is not in the timeline. *)
Theorem update_replaces_in_place record tweets :
  let updated := onTweetEvent "update" record tweets in
  map rec_id updated = map rec_id tweets
  ∧ (∀ t, t ∈ updated → rec_id t = rec_id record → t = record)
  ∧ (rec_id record ∉ map rec_id tweets → updated = tweets).
Proof.
  simpl. unfold onTweetEvent. simpl. split; [|split].
  - rewrite map_map. apply map_ext. intros t. by case_decide.
  - intros t (t0 & -> & Ht0)%list_elem_of_fmap. by case_decide.
  - intros Hfresh. induction tweets as [|t ts IH]; [done|]. simpl in *.
    apply not_elem_of_cons in Hfresh as [Hne Hfresh].
    rewrite IH by done. by rewrite decide_False.
Qed.

(** ** [registerUser]: the default name *)

Lemma beforeFirst_spec sep s :
  ∃ rest,
    s = beforeFirst sep s +:+ rest
    ∧ (rest = EmptyString ∨ ∃ rest', rest = String sep rest')
    ∧ (∀ a b, beforeFirst sep s ≠ a +:+ String sep b).
Proof.
  induction s as [|c s (rest & Heq & Hrest & Hfree)]; simpl.
  - exists EmptyString. split; [done|]. split; [by left|].
    intros [|??] b; discriminate.
  - destruct (Ascii.eqb c sep) eqn:Hc.
    + apply Ascii.eqb_eq in Hc as ->. exists (String sep s).
      split; [done|]. split; [eauto|]. intros [|??] b; discriminate.
    + exists rest. split.
      { change (String c s = String c (beforeFirst sep s +:+ rest)). by f_equal. }
      split; [done|].
      intros [|c' a] b; simpl; intros [= Hc' Hs].
      * subst c. by rewrite Ascii.eqb_refl in Hc.
      * by apply (Hfree a b).
Qed.

(** X19: [registerUser] sends the given name when it is not empty, and otherwise
    what comes before the first "@" of the email: a prefix of the email
    without "@", the whole email when it has none. *)
Theorem registerUser_default_name email password passwordConfirm name :
  let data := registerUserData email password passwordConfirm name in
  reg_email data = email
  ∧ (∀ n, name = Some n → n ≠ EmptyString → reg_name data = n)
  ∧ (name = None ∨ name = Some EmptyString →
     ∃ rest,
       email = reg_name data +:+ rest
       ∧ (rest = EmptyString ∨ ∃ rest', rest = String atSign rest')
       ∧ (∀ a b, reg_name data ≠ a +:+ String atSign b)).
Proof.
  simpl. split; [done|]. split.
  - intros n -> Hn. simpl. destruct (String.eqb n EmptyString) eqn:Heq; [|done].
    by apply String.eqb_eq in Heq.
  - intros [-> | ->]; simpl; apply beforeFirst_spec.
Qed.

(** ** Probing a collection *)

Section CheckCollectionFacts.
Context {Net : Type} `{Records : RecordsApi Net}.
Variable jsString : JsValue → string.

Lemma classifyFailure_blocked collectionName error :
  chk_accessible (classifyFailure jsString collectionName error) = false
  ∧ chk_error (classifyFailure jsString collectionName error) ≠ None.
Proof. unfold classifyFailure. repeat case_match; done. Qed.

(** X20: [checkCollection] sends one request; it reports the collection accessible
    exactly when the request resolves, never accessible without existing,
    and an error text exactly when it is not accessible. *)
Theorem checkCollection_verdicts pb collectionName n :
  let request := collection_getList pb collectionName 1 1 n in
  let verdict := (checkCollection jsString pb collectionName n).1 in
  (checkCollection jsString pb collectionName n).2 = request.2
  ∧ (chk_accessible verdict = true ↔ ∃ items, request.1 = inr items)
  ∧ (chk_accessible verdict = true → chk_exists verdict = true)
  ∧ (chk_error verdict = None ↔ chk_accessible verdict = true).
Proof.
  cbn zeta. unfold checkCollection.
  destruct (collection_getList pb collectionName 1 1 n) as [[error|items] n'];
    simpl.
  - destruct (classifyFailure_blocked collectionName error) as [-> Herr].
    split; [done|]. split; [|split; [done|]].
    + split; [done|]. by intros [items ?].
    + split; [|done]. intros Hnone. by destruct Herr.
  - split; [done|]. split; [|split; [done|]]; split; eauto.
Qed.

(** X21: [collectionExists] is true exactly when the probe request resolves; a
    rejection with status 403 is reported as existing by [checkCollection]
    and as not existing by [collectionExists]. *)
Theorem collectionExists_iff_listable pb collectionName n :
  let request := collection_getList pb collectionName 1 1 n in
  ((collectionExists jsString pb collectionName n).1 = true
   ↔ ∃ items, request.1 = inr items)
  ∧ (∀ props, request.1 = inl (JsObject (("status", JsNumber 403) :: props)) →
       chk_exists (checkCollection jsString pb collectionName n).1 = true
       ∧ (collectionExists jsString pb collectionName n).1 = false).
Proof.
  cbn zeta. unfold collectionExists, checkCollection.
  destruct (collection_getList pb collectionName 1 1 n) as [[error|items] n'];
    simpl.
  - destruct (classifyFailure_blocked collectionName error) as [Hacc _].
    rewrite Hacc, andb_false_r. split.
    + split; [done|]. by intros [items ?].
    + intros props [= ->]. done.
  - split; [split; eauto|]. intros props [=].
Qed.

End CheckCollectionFacts.

(** ** [runTest] *)

(** X22: [runTest] never throws: it returns when the test has run, with
    [success] and the result when the test returned, with the message of the
    error when it threw; it leaves the state as the test left it, and the
    duration spans the clock readings before and after the test. *)
Theorem runTest_never_throws {S Instant T} (now : S → Instant)
    (roundedSpan : Instant → Instant → Z) (testFn : Js S T) (s : S) :
  ∃ r,
    runTest now roundedSpan testFn s = (inr r, exec testFn s)
    ∧ run_duration r = roundedSpan (now s) (now (exec testFn s))
    ∧ match outcome testFn s with
      | inr result =>
          run_success r = true ∧ run_result r = Some result ∧ run_error r = None
      | inl error =>
          run_success r = false ∧ run_result r = None
          ∧ run_error r = Some (errorMsg error)
      end.
Proof.
  unfold runTest, exec, outcome, try_catch, bind, get, ret. simpl.
  destruct (testFn s) as [[error|result] s']; simpl;
    (eexists; split; [reflexivity|]; done).
Qed.

(** ** Generated test data *)

Lemma pretty_N_go_lacks_underscore x s :
  lacks underscore s → lacks underscore (pretty_N_go x s).
Proof.
  revert s. induction (N.lt_wf_0 x) as [x _ IH]; intros s Hs.
  assert (x = 0 ∨ 0 < x)%N as [->|?] by lia.
  - by rewrite pretty_N_go_0.
  - rewrite pretty_N_go_step by done. apply IH.
    { by apply N.div_lt. }
    split; [|done]. unfold pretty_N_char. by repeat case_match.
Qed.

Lemma pretty_N_lacks_underscore (x : N) : lacks underscore (pretty x).
Proof.
  unfold pretty, pretty_N. case_decide.
  - split; [done|exact I].
  - by apply pretty_N_go_lacks_underscore.
Qed.

Lemma split_at_first c a b x y :
  lacks c a → lacks c b →
  a +:+ String c x = b +:+ String c y → a = b ∧ x = y.
Proof.
  revert b. induction a as [|a0 a IH]; intros [|b0 b] Ha Hb Heq; simpl in *.
  - by injection Heq as ->.
  - injection Heq as <- _. by destruct Hb.
  - injection Heq as -> _. by destruct Ha.
  - injection Heq as -> Heq. destruct Ha as [_ Ha], Hb as [_ Hb].
    destruct (IH b Ha Hb Heq) as [-> ->]. done.
Qed.

(** X23: two generated emails, or two generated passwords, are equal only when
    both the timestamp and the random part are. *)
Theorem generated_test_data_is_unique timestamp1 random1 timestamp2 random2 :
  generateTestEmail timestamp1 random1 = generateTestEmail timestamp2 random2
  ∨ generateTestPassword timestamp1 random1
    = generateTestPassword timestamp2 random2 →
  timestamp1 = timestamp2 ∧ random1 = random2.
Proof.
  unfold generateTestEmail, generateTestPassword.
  intros [Heq|Heq]; apply (inj (String.append _)) in Heq;
    apply split_at_first in Heq as [Ht Hr];
    try apply pretty_N_lacks_underscore.
  - split; [by apply (inj pretty)|]. by apply append_cancel_suffix in Hr.
  - split; [by apply (inj pretty)|]. by apply append_cancel_suffix in Hr.
Qed.

Lemma generated_test_data_is_unique_witness :
  (1700000000000%N = 1700000000000%N) ∧ "k3x9ab" = "k3x9ab".
Proof.
  apply (generated_test_data_is_unique 1700000000000 "k3x9ab" 1700000000000 "k3x9ab").
  left. reflexivity.
Defined.

Example generated_email :
  generateTestEmail 1700000000000 "k3x9ab"
  = "test_1700000000000_k3x9ab@fstack.test".
Proof. by vm_compute. Qed.

(** ** Instances on the scripted server *)

Lemma entries_follow_registry_order_witness :
  ∃ r st' loopErrors,
    provisionCollections
      (Scripted.options [Scripted.schema "a"; Scripted.schema "b"; Scripted.schema "c"]
         false None)
      (Scripted.start (Scripted.mkServer [mkModel "c0" "b"] []))
    = (inr r, st')
    ∧ errors r = ([] ++ loopErrors)%list
    ∧ skipped r `sublist_of` ["a"; "b"; "c"]
    ∧ map collection loopErrors `sublist_of` ["a"; "b"; "c"]
    ∧ (false = false → created r `sublist_of` ["a"; "b"; "c"]).
Proof.
  apply (entries_follow_registry_order
           (Scripted.options
              [Scripted.schema "a"; Scripted.schema "b"; Scripted.schema "c"] false None)
           (Scripted.start (Scripted.mkServer [mkModel "c0" "b"] []))
           {[ "b" ]}).
  vm_compute. reflexivity.
Defined.

Lemma entries_agree_with_listing_witness :
  ∃ r st',
    provisionCollections (Scripted.options DEFAULT_COLLECTIONS true None)
      (Scripted.start (Scripted.mkServer [mkModel "c1" "tweets"] []))
    = (inr r, st')
    ∧ skipped r = [].
Proof.
  destruct (entries_agree_with_listing
              (Scripted.options DEFAULT_COLLECTIONS true None)
              (Scripted.start (Scripted.mkServer [mkModel "c1" "tweets"] []))
              {[ "tweets" ]})
    as (r & st' & Hrun & _ & _ & Hnone).
  - vm_compute. reflexivity.
  - exists r, st'. split; [exact Hrun|]. by apply Hnone.
Defined.

Lemma listed_registry_sends_no_request_witness :
  ∃ r st',
    provisionCollections (Scripted.options DEFAULT_COLLECTIONS false None)
      (Scripted.start
         (Scripted.mkServer [mkModel "c1" "test_items"; mkModel "c2" "tweets"]
            [None; None; Some (ErrorInstance "never reached")]))
    = (inr r, st')
    ∧ Scripted.script (net st') = [Some (ErrorInstance "never reached")]
    ∧ skipped r = ["test_items"; "tweets"].
Proof.
  destruct (listed_registry_sends_no_request
              (Scripted.options DEFAULT_COLLECTIONS false None)
              (Scripted.start
                 (Scripted.mkServer [mkModel "c1" "test_items"; mkModel "c2" "tweets"]
                    [None; None; Some (ErrorInstance "never reached")]))
              {[ "test_items"; "tweets" ]})
    as (r & st' & Hrun & Hnet & _ & Hskipped & _).
  - vm_compute. reflexivity.
  - reflexivity.
  - apply Forall_forall. apply (bool_decide_unpack _). vm_compute. exact I.
  - exists r, st'. split; [exact Hrun|]. split; [by rewrite Hnet|exact Hskipped].
Defined.

Lemma empty_registry_succeeds_with_nothing_witness :
  ∃ st',
    provisionCollections (Scripted.options [] true None)
      (Scripted.start (Scripted.mkServer [mkModel "c1" "tweets"] []))
    = (inr (mkResult true [] [] [] "Successfully created 0 collection(s)"), st')
    ∧ net st'
      = net (beforeLoop (Scripted.options [] true None)
               (Scripted.start (Scripted.mkServer [mkModel "c1" "tweets"] []))).
Proof.
  apply (empty_registry_succeeds_with_nothing (Scripted.options [] true None)
           (Scripted.start (Scripted.mkServer [mkModel "c1" "tweets"] []))
           {[ "tweets" ]}).
  - vm_compute. reflexivity.
  - reflexivity.
  - vm_compute. reflexivity.
Defined.

Lemma updateTest_unknown_target_witness :
  updateTest "crud" "missing" (mkUpdates None None None (Some TPassed) None None None)
    [ createTestGroup "crud" "CRUD" "db" "Records"
        [ createTest "create" "Create" "Create a record" None ] ]
  = [ createTestGroup "crud" "CRUD" "db" "Records"
        [ createTest "create" "Create" "Create a record" None ] ].
Proof.
  apply updateTest_unknown_target.
  intros g t Hg _ Ht.
  apply list_elem_of_singleton in Hg as ->.
  apply list_elem_of_singleton in Ht as ->. done.
Defined.

Lemma create_then_delete_restores_witness :
  onTweetEvent "delete" (mkRecord "t2" [])
    (onTweetEvent "create" (mkRecord "t2" []) [ mkRecord "t1" [] ])
  = [ mkRecord "t1" [] ].
Proof.
  apply create_then_delete_restores. simpl. by intros [=]%list_elem_of_singleton.
Defined.
